(** * Initialization and assignment checks of types2 (assignments.go)

    A shallow embedding of [cmd/compile/internal/types2/assignments.go]:
    [assignment], [initConst], [initVar], [lhsVar], [assignVar],
    [typesSummary], [measure], [assignError], [initVars], [assignVars] and
    [shortVarDecl].

    The checker is stateful: [*Var] objects are shared between scopes and the
    functions of this file, so they live in a heap addressed by [VarRef], and
    every function is a computation in the monad [M] below, which threads the
    checker state, collects what the function reports to the error sink and
    which type-system oracles it consults, and can end in a run-time panic
    (failed [assert], failed type assertion, index out of range).

    Everything the file calls but does not define (the type predicates, the
    expression evaluator, the recorders, the scope operations) is an
    uninterpreted member of the interfaces [TypeSystem] and [Collaborators].
    What a collaborator reports or records is part of the checker state it
    returns; the trace of a function holds what the function itself reports. *)

From stdpp Require Import base decidable option list strings gmap functions pretty.
From Stdlib Require Import ZArith.

Set Default Proof Using "Type".
Open Scope Z_scope.
Open Scope nat_scope.

(** ** Syntax and positions *)

(** [syntax.Pos]; only passed along by this file. *)
Definition Pos := nat.
Definition nopos : Pos := 0.

(** [syntax.Expr], restricted to the node kinds the file tells apart by a type
    assertion ([*syntax.Name], [*syntax.ParenExpr] through [unparen],
    [*syntax.SelectorExpr], [*syntax.CallExpr]); every other node is an
    [OtherExpr]. The number in [Name] and [OtherExpr] identifies the node. *)
#[warnings="-register-all"]
Inductive Expr :=
  | Name (node : nat) (Value : string)
  | ParenExpr (X : Expr)
  | SelectorExpr (X : Expr) (Sel : string)
  | CallExpr (Fun : Expr) (ArgList : list Expr)
  | OtherExpr (node : nat).

(** [syntax.Stmt] nodes are opaque. *)
Definition Stmt := nat.

(** [unparen] strips enclosing parentheses. *)
Fixpoint unparen (e : Expr) : Expr :=
  match e with
  | ParenExpr X => unparen X
  | _ => e
  end.

(** [e.( *syntax.Name)] with the comma-ok form: the identifier's value, or
    [None] for the nil result. *)
Definition asName (e : Expr) : option string :=
  match e with
  | Name _ v => Some v
  | _ => None
  end.

(** ** Error codes *)

(** The codes of [internal/types/errors] that the file names. [Code0] is the
    zero code ("no error") that [implicitTypeAndValue] returns on success;
    [OtherCode] stands for the codes the file does not name, which the oracles
    may still return. *)
Inductive Code :=
  | Code0
  | IncompatibleAssign
  | UntypedNilUse
  | TruncatedFloat
  | NumericOverflow
  | WrongTypeArgCount
  | InvalidConstInit
  | UnaddressableFieldAssign
  | UnassignableOperand
  | WrongAssignCount
  | WrongResultCount
  | BadDecl
  | RepeatedDecl
  | NoNewVar
  | OtherCode (n : nat).

#[global] Instance Code_eq_dec : EqDecision Code.
Proof. solve_decision. Defined.

(** ** Operand modes *)

(** The operand modes the file names; [otherMode] stands for the modes that
    only the [default:] branches of its switches reach. *)
Inductive operandMode :=
  | invalid
  | constant_
  | variable
  | mapindex
  | value
  | nilvalue
  | commaok
  | commaerr
  | otherMode (k : nat).

#[global] Instance operandMode_eq_dec : EqDecision operandMode.
Proof. solve_decision. Defined.

(** The modes of the [case constant_, variable, mapindex, value, nilvalue,
    commaok, commaerr:] arm of [assignment]. *)
Definition assignable_mode (m : operandMode) : bool :=
  match m with
  | constant_ | variable | mapindex | value | nilvalue | commaok | commaerr => true
  | _ => false
  end.

(** ** The type system, as far as the file looks into it *)

Class TypeSystem := {
  (** values of the interface type [Type]; [nilType] is its nil value *)
  GoType : Type;
  GoType_eq_dec :: EqDecision GoType;
  (** non-nil [constant.Value]s *)
  Value : Type;
  (** the state the collaborators keep for themselves: contents of scopes,
      recorded types and uses, the queue of delayed actions, their own
      diagnostics *)
  Env : Type;
  nilType : GoType;
  Typ_Invalid : GoType;
  Typ_UntypedNil : GoType;
  isUntyped : GoType → bool;
  isNumeric : GoType → bool;
  isConstType : GoType → bool;
  isNonTypeParamInterface : GoType → bool;
  Default : GoType → GoType;
  (** [under(t).( *Signature)]: [Some n] when the underlying type is a
      signature with [n] type parameters, [None] when it is not a signature *)
  underSignature : GoType → option nat;
  (** [t.( *Basic).name] of an untyped type (untyped types are basic types) *)
  basicName : GoType → string;
  (** [t.( *Slice).elem], [None] where the type assertion panics *)
  sliceElem : GoType → option GoType;
  (** [check.sprintf("%s", t)] *)
  typeString : GoType → string
}.

Section Model.
Context `{TS : TypeSystem}.

(** ** Operands, objects and the checker state *)

Record operand := mkOperand {
  op_mode : operandMode;
  op_expr : option Expr;
  op_typ : GoType;
  op_val : option Value
}.

Definition set_mode (m : operandMode) (x : operand) : operand :=
  mkOperand m (op_expr x) (op_typ x) (op_val x).
Definition set_typ (t : GoType) (x : operand) : operand :=
  mkOperand (op_mode x) (op_expr x) t (op_val x).
Definition set_val (v : Value) (x : operand) : operand :=
  mkOperand (op_mode x) (op_expr x) (op_typ x) (Some v).

(** Addresses of packages, scopes and [*Var] objects. *)
Definition Pkg := nat.
Definition Scope := nat.
Definition VarRef := nat.

Record Var := mkVar {
  var_pos : Pos;
  var_pkg : Pkg;
  var_name : string;
  var_typ : GoType;
  var_used : bool
}.

Definition var_set_typ (t : GoType) (v : Var) : Var :=
  mkVar (var_pos v) (var_pkg v) (var_name v) t (var_used v).
Definition var_set_used (b : bool) (v : Var) : Var :=
  mkVar (var_pos v) (var_pkg v) (var_name v) (var_typ v) b.

(** A [*Const] is reached only through the parameter of [initConst]; it is
    passed and returned by value. *)
Record Const := mkConst {
  const_typ : GoType;
  const_val : option Value
}.

(** An [Object] is a [*Var] or something else (constant, function, type
    name, ...). [obj.( *Var)] succeeds on the former only. *)
Inductive Object :=
  | ObjVar (v : VarRef)
  | ObjOther (node : nat).

Definition asVar (o : Object) : option VarRef :=
  match o with
  | ObjVar v => Some v
  | ObjOther _ => None
  end.

Record Checker := mkChecker {
  heap : VarRef → Var;
  pkg : Pkg;
  scope : Scope;
  env : Env
}.

Definition with_heap (h : VarRef → Var) (s : Checker) : Checker :=
  mkChecker h (pkg s) (scope s) (env s).

(** ** What reaches the error sink *)

(** The arguments of a format string, unformatted. A [syntax.Expr] that is
    read from an operand may be nil, hence the option. *)
Inductive Arg :=
  | ArgOperand (x : operand)
  | ArgType (t : GoType)
  | ArgString (s : string)
  | ArgExpr (e : option Expr).

(** Where a diagnostic is reported: every [poser] the file passes. *)
Inductive poser :=
  | atOperand (x : operand)
  | atExpr (e : option Expr)
  | atStmt (st : Stmt)
  | atPos (p : Pos).

(** One [errorf] entry of an [error_]: position, format, arguments. *)
Definition Desc : Type := poser * string * list Arg.

Record Diag := mkDiag {
  d_code : Code;
  d_soft : bool;
  d_desc : list Desc
}.

(** What a function of this file does towards the outside, in order: the
    diagnostics it reports and the consultations of the two type-system
    oracles that decide an assignment. *)
Inductive Event :=
  | EvReport (d : Diag)
  | EvImplicit (x : operand) (target : GoType)
  | EvAssignable (x : operand) (T : GoType).

Definition is_report (e : Event) : bool :=
  match e with
  | EvReport _ => true
  | _ => false
  end.

Definition is_assignable_query (e : Event) : bool :=
  match e with
  | EvAssignable _ _ => true
  | _ => false
  end.

(** The diagnostics of a trace. *)
Definition reports (tr : list Event) : list Diag :=
  omap (λ e, match e with EvReport d => Some d | _ => None end) tr.

(** ** The checker monad *)

(** [None] is a run-time panic. *)
Definition M (A : Type) : Type := Checker → option (A * Checker * list Event).

Definition ret {A} (a : A) : M A := λ s, Some (a, s, []).

(** [pre tr r] puts the events [tr] before those of the outcome [r]. *)
Definition pre {A} (tr : list Event) (r : option (A * Checker * list Event))
  : option (A * Checker * list Event) :=
  match r with
  | None => None
  | Some (a, s, tr') => Some (a, s, tr ++ tr')
  end.

Definition bind {A B} (m : M A) (k : A → M B) : M B :=
  λ s, match m s with
       | None => None
       | Some (a, s1, tr1) => pre tr1 (k a s1)
       end.

Definition panic {A} : M A := λ _, None.

Definition emit (e : Event) : M unit := λ s, Some (tt, s, [e]).

(** Read the state, change the state, call a collaborator. *)
Definition gets {A} (f : Checker → A) : M A := λ s, Some (f s, s, []).
Definition modify (f : Checker → Checker) : M unit := λ s, Some (tt, f s, []).
Definition call {A} (f : Checker → A * Checker) : M A :=
  λ s, let '(a, s1) := f s in Some (a, s1, []).

Definition fromOption {A} (o : option A) : M A :=
  match o with
  | Some a => ret a
  | None => panic
  end.

End Model.

Declare Scope checker_scope.
Delimit Scope checker_scope with checker.
Notation "'let*' x ':=' c1 'in' c2" := (bind c1 (λ x, c2))
  (at level 10, x pattern, c1 at level 100, c2 at level 200) : checker_scope.
Notation "c1 ';;;' c2" := (bind c1 (λ _, c2))
  (at level 100, c2 at level 200, right associativity) : checker_scope.
Open Scope checker_scope.

(** ** The collaborators *)

(** The methods of [Checker] and of [operand] and the functions of [syntax]
    that the file calls and does not define. A method that may change the
    checker (report its own errors, mark variables used, record types, declare
    objects) is a function on [Checker]; a method that only reads it takes the
    checker and returns a value. *)
Class Collaborators `{TS : TypeSystem} := {
  singleValue : operand → Checker → operand * Checker;
  isNil : operand → bool;
  implicitTypeAndValue : operand → GoType → Checker → GoType * option Value * Code;
  (** [x.assignableTo(check, T, &cause)]: ok, code and the cause written *)
  assignableTo : operand → GoType → Checker → bool * Code * string;
  updateExprVal : option Expr → Value → Checker → Checker;
  updateExprType : option Expr → GoType → bool → Checker → Checker;
  recordDef : Expr → option VarRef → Checker → Checker;
  recordUse : Expr → Object → Checker → Checker;
  recordCommaOkTypes : Expr → GoType * GoType → Checker → Checker;
  lookup : string → Checker → option Object;
  Scope_Lookup : Scope → string → Checker → option Object;
  expr : Expr → Checker → operand * Checker;
  exprList : list Expr → bool → Checker → list operand * bool * Checker;
  use : list Expr → Checker → Checker;
  (** [len(check.delayed)] *)
  delayedLen : Checker → nat;
  processDelayed : nat → Checker → Checker;
  declare : Scope → VarRef → Pos → Checker → Checker;
  (** [NewVar(pos, pkg, name, typ)] allocates a variable object *)
  NewVar : Pos → Pkg → string → GoType → Checker → VarRef * Checker;
  Expr_Pos : Expr → Pos;
  EndPos : Expr → Pos
}.

Section Assignments.
Context `{CO : Collaborators}.

(** ** Reporting *)

(** [check.errorf(at, code, format, args...)] *)
Definition errorf (at_ : poser) (code : Code) (format : string) (args : list Arg) : M unit :=
  emit (EvReport (mkDiag code false [(at_, format, args)])).

(** [check.softErrorf(at, code, format, args...)] *)
Definition softErrorf (at_ : poser) (code : Code) (format : string) (args : list Arg) : M unit :=
  emit (EvReport (mkDiag code true [(at_, format, args)])).

(** [check.report(&err)] for an [error_] built by several [err.errorf] *)
Definition report (code : Code) (desc : list Desc) : M unit :=
  emit (EvReport (mkDiag code false desc)).

(** Reads and writes through a [*Var]: [v.typ = t], [v.used = b]. *)
Definition typAt (v : VarRef) (t : GoType) (s : Checker) : Checker :=
  with_heap (<[v := var_set_typ t (heap s v)]> (heap s)) s.
Definition usedAt (v : VarRef) (b : bool) (s : Checker) : Checker :=
  with_heap (<[v := var_set_used b (heap s v)]> (heap s)) s.
Definition setVarTyp (v : VarRef) (t : GoType) : M unit := modify (typAt v t).
Definition setVarUsed (v : VarRef) (b : bool) : M unit := modify (usedAt v b).
Definition getVar (v : VarRef) : M Var := gets (λ s, heap s v).

(** ** [assignment] *)

(** Lines 76-98: the part of [assignment] behind the conversion of untyped
    operands, where [x.typ] is typed. *)
Definition assignment_typed (x : operand) (T : GoType) (context : string) : M operand :=
  (match underSignature (op_typ x) with
   | Some (S _) =>
       errorf (atOperand x) WrongTypeArgCount
         "cannot use generic function %s without instantiation in %s"
         [ArgOperand x; ArgString context]
   | _ => ret tt
   end) ;;;
  if decide (T = nilType) then ret x
  else
    emit (EvAssignable x T) ;;;
    let* (ok, code, cause) := gets (assignableTo x T) in
    if ok : bool then ret x
    else
      (if decide (cause = ""%string) then
         errorf (atOperand x) code "cannot use %s as %s value in %s"
           [ArgOperand x; ArgType T; ArgString context]
       else
         errorf (atOperand x) code "cannot use %s as %s value in %s: %s"
           [ArgOperand x; ArgType T; ArgString context; ArgString cause]) ;;;
      ret (set_mode invalid x).

(** [assignment(x, T, context)]; the result is the operand [x] points to
    afterwards. [T = nilType] is the assignment to an untyped blank
    identifier. *)
Definition assignment (x : operand) (T : GoType) (context : string) : M operand :=
  let* x := call (singleValue x) in
  if decide (op_mode x = invalid) then ret x
  else if negb (assignable_mode (op_mode x)) then
    errorf (atOperand x) IncompatibleAssign "cannot assign %s to %s in %s"
      [ArgOperand x; ArgType T; ArgString context] ;;;
    ret x
  else if isUntyped (op_typ x) then
    if isNil x && bool_decide (T = nilType) then
      errorf (atOperand x) UntypedNilUse "use of untyped nil in %s" [ArgString context] ;;;
      ret (set_mode invalid x)
    else
      let target :=
        if negb (isNil x) && (bool_decide (T = nilType) || isNonTypeParamInterface T)
        then Default (op_typ x) else T in
      emit (EvImplicit x target) ;;;
      let* (newType, val, code) := gets (implicitTypeAndValue x target) in
      if decide (code ≠ Code0) then
        let args := [ArgOperand x; ArgType target; ArgString context] in
        (match code with
         | TruncatedFloat =>
             report TruncatedFloat
               [(atOperand x, "cannot use %s as %s value in %s (truncated)"%string, args)]
         | NumericOverflow =>
             report NumericOverflow
               [(atOperand x, "cannot use %s as %s value in %s (overflows)"%string, args)]
         | _ =>
             report IncompatibleAssign
               [(atOperand x, "cannot use %s as %s value in %s"%string, args)]
         end) ;;;
        ret (set_mode invalid x)
      else
        let* x :=
          match val with
          | Some v => modify (updateExprVal (op_expr x) v) ;;; ret (set_val v x)
          | None => ret x
          end in
        let* x :=
          if decide (newType ≠ op_typ x) then
            modify (updateExprType (op_expr x) newType false) ;;; ret (set_typ newType x)
          else ret x in
        assignment_typed x T context
  else assignment_typed x T context.

(** ** [initConst] and [initVar] *)

Definition const_set_typ (t : GoType) (c : Const) : Const := mkConst t (const_val c).
Definition const_set_val (v : option Value) (c : Const) : Const := mkConst (const_typ c) v.

(** [if lhs.typ == nil { lhs.typ = Typ[Invalid] }] on a constant *)
Definition const_invalidate (c : Const) : Const :=
  if decide (const_typ c = nilType) then const_set_typ Typ_Invalid c else c.

(** [initConst(lhs, x)]: the constant and the operand afterwards. *)
Definition initConst (lhs : Const) (x : operand) : M (Const * operand) :=
  if bool_decide (op_mode x = invalid) || bool_decide (op_typ x = Typ_Invalid)
     || bool_decide (const_typ lhs = Typ_Invalid) then
    ret (const_invalidate lhs, x)
  else if decide (op_mode x ≠ constant_) then
    errorf (atOperand x) InvalidConstInit "%s is not constant" [ArgOperand x] ;;;
    ret (const_invalidate lhs, x)
  else if negb (isConstType (op_typ x)) then panic
  else
    let lhs := if decide (const_typ lhs = nilType) then const_set_typ (op_typ x) lhs else lhs in
    let* x := assignment x (const_typ lhs) "constant declaration" in
    if decide (op_mode x = invalid) then ret (lhs, x)
    else ret (const_set_val (op_val x) lhs, x).

(** Lines 158-164 of [initVar]. *)
Definition initVar_assign (lhs : VarRef) (x : operand) (context : string) : M (GoType * operand) :=
  let* l := getVar lhs in
  let* x := assignment x (var_typ l) context in
  if decide (op_mode x = invalid) then
    setVarUsed lhs true ;;;
    ret (nilType, x)
  else ret (op_typ x, x).

(** [initVar(lhs, x, context)]: the result type ([nilType] for nil) and the
    operand afterwards. *)
Definition initVar (lhs : VarRef) (x : operand) (context : string) : M (GoType * operand) :=
  let* l := getVar lhs in
  if bool_decide (op_mode x = invalid) || bool_decide (op_typ x = Typ_Invalid)
     || bool_decide (var_typ l = Typ_Invalid) then
    (if decide (var_typ l = nilType) then setVarTyp lhs Typ_Invalid else ret tt) ;;;
    setVarUsed lhs true ;;;
    ret (nilType, x)
  else if decide (var_typ l = nilType) then
    let typ := op_typ x in
    if isUntyped typ then
      if decide (typ = Typ_UntypedNil) then
        errorf (atOperand x) UntypedNilUse "use of untyped nil in %s" [ArgString context] ;;;
        setVarTyp lhs Typ_Invalid ;;;
        ret (nilType, x)
      else
        setVarTyp lhs (Default typ) ;;;
        initVar_assign lhs x context
    else
      setVarTyp lhs typ ;;;
      initVar_assign lhs x context
  else initVar_assign lhs x context.

(** ** [lhsVar] and [assignVar] *)

(** [lhsVar(lhs)]: the type of the left-hand side, [nilType] for the blank
    identifier, [Typ_Invalid] for an invalid one. *)
Definition lhsVar (lhs : Expr) : M GoType :=
  let ident := asName (unparen lhs) in
  if decide (ident = Some "_"%string) then
    modify (recordDef (unparen lhs) None) ;;;
    ret nilType
  else
    let* v :=
      match ident with
      | Some name =>
          let* obj := gets (lookup name) in
          match obj ≫= asVar with
          | Some w =>
              let* wv := getVar w in
              let* p := gets pkg in
              if decide (var_pkg wv = p) then ret (Some (w, var_used wv)) else ret None
          | None => ret None
          end
      | None => ret None
      end in
    let* x := call (expr lhs) in
    (match v with
     | Some (w, v_used) => setVarUsed w v_used
     | None => ret tt
     end) ;;;
    if bool_decide (op_mode x = invalid) || bool_decide (op_typ x = Typ_Invalid) then
      ret Typ_Invalid
    else
      match op_mode x with
      | invalid => ret Typ_Invalid
      | variable | mapindex => ret (op_typ x)
      | _ =>
          let* handled :=
            match op_expr x with
            | Some (SelectorExpr X _) =>
                let* op := call (expr X) in
                if decide (op_mode op = mapindex) then
                  errorf (atOperand x) UnaddressableFieldAssign
                    "cannot assign to struct field %s in map" [ArgExpr (op_expr x)] ;;;
                  ret true
                else ret false
            | _ => ret false
            end in
          if handled : bool then ret Typ_Invalid
          else
            errorf (atOperand x) UnassignableOperand "cannot assign to %s" [ArgOperand x] ;;;
            ret Typ_Invalid
      end.

(** [assignVar(lhs, x)]: the type of [x], [nilType] if the assignment is
    invalid, and the operand afterwards. *)
Definition assignVar (lhs : Expr) (x : operand) : M (GoType * operand) :=
  if bool_decide (op_mode x = invalid) || bool_decide (op_typ x = Typ_Invalid) then
    modify (use [lhs]) ;;;
    ret (nilType, x)
  else
    let* T := lhsVar lhs in
    if decide (T = Typ_Invalid) then ret (nilType, x)
    else
      let context := if decide (T = nilType) then "assignment to _ identifier"%string
                     else "assignment"%string in
      let* x := assignment x T context in
      if decide (op_mode x = invalid) then ret (nilType, x)
      else ret (op_typ x, x).

(** ** Summaries for the arity diagnostics *)

(** [for i, a := range l { st = f i a st }]: a loop over a slice that
    carries the variables it assigns in [st]. *)
Fixpoint forRange {A St} (f : nat → A → St → M St) (i : nat) (l : list A) (st : St) : M St :=
  match l with
  | [] => ret st
  | a :: l' => let* st := f i a st in forRange f (S i) l' st
  end.

(** [for _, a := range l { f a }] *)
Definition forEach {A} (f : A → M unit) (l : list A) : M unit :=
  forRange (λ _ a _, f a) 0 l tt.

Definition operandTypes (l : list operand) : list GoType := map op_typ l.

(** [varTypes] reads the variables through their pointers. *)
Definition varTypes (l : list VarRef) : M (list GoType) :=
  gets (λ s, map (λ v, var_typ (heap s v)) l).

(** Whether [p] is a prefix of [s]. *)
Fixpoint has_prefix (p s : string) : bool :=
  match p, s with
  | EmptyString, _ => true
  | String a p', String b s' => bool_decide (a = b) && has_prefix p' s'
  | String _ _, EmptyString => false
  end.

(** [strings.Replace(s, old, new, -1)] for a non-empty [old]: every
    non-overlapping occurrence, from the left. [skip] counts the characters
    of a matched occurrence still to be dropped. *)
Fixpoint replace_from (old new : string) (skip : nat) (s : string) : string :=
  match s with
  | EmptyString => EmptyString
  | String c r =>
      match skip with
      | S k => replace_from old new k r
      | O =>
          if has_prefix old s
          then new +:+ replace_from old new (String.length old - 1) r
          else String c (replace_from old new 0 r)
      end
  end.
Definition strings_Replace (s old new : string) : string := replace_from old new 0 s.

(** [strings.Join(elems, sep)] *)
Fixpoint strings_Join (elems : list string) (sep : string) : string :=
  match elems with
  | [] => EmptyString
  | [e] => e
  | e :: rest => e +:+ sep +:+ strings_Join rest sep
  end.

(** The string of one type in [typesSummary]; [None] is the panic of
    [t.( *Slice)] on a type that is not a slice. *)
Definition typeSummary (n : nat) (variadic : bool) (i : nat) (t : GoType) : option string :=
  s ← (if bool_decide (t = nilType) || bool_decide (t = Typ_Invalid) then
         Some "unknown type"%string
       else if isUntyped t then
         if isNumeric t then Some "number"%string
         else Some (strings_Replace (basicName t) "untyped " "")
       else if variadic && bool_decide (Z.of_nat i = (Z.of_nat n - 1)%Z) then
         elem ← sliceElem t; Some ("..." +:+ typeString elem)
       else Some EmptyString);
  Some (if decide (s = EmptyString) then typeString t else s).

(** [check.typesSummary(list, variadic)] *)
Definition typesSummary (l : list GoType) (variadic : bool) : option string :=
  res ← mapM (λ '(i, t), typeSummary (length l) variadic i t) (imap pair l);
  Some ("(" +:+ strings_Join res ", " +:+ ")").

(** [measure(x, unit)] *)
Definition measure (x : Z) (unit : string) : string :=
  let unit := if decide (x ≠ 1%Z) then unit +:+ "s" else unit in
  pretty x +:+ " " +:+ unit.

(** [check.assignError(rhs, nvars, nvals)]; [rhs[0]] panics on an empty
    [rhs]. *)
Definition assignError (rhs : list Expr) (nvars nvals : Z) : M unit :=
  let vars := measure nvars "variable" in
  let vals := measure nvals "value" in
  let* rhs0 := fromOption (rhs !! 0) in
  match (if decide (length rhs = 1) then Some (unparen rhs0) else None) with
  | Some (CallExpr Fun _) =>
      errorf (atExpr (Some rhs0)) WrongAssignCount "assignment mismatch: %s but %s returns %s"
        [ArgString vars; ArgExpr (Some Fun); ArgString vals]
  | _ =>
      errorf (atExpr (Some rhs0)) WrongAssignCount "assignment mismatch: %s but %s"
        [ArgString vars; ArgString vals]
  end.

(** ** [initVars] and [assignVars] *)

(** Lines 337-342: invalidate the left-hand side. *)
Definition invalidateVars (lhs : list VarRef) : M unit :=
  forEach (λ obj,
    setVarUsed obj true ;;;
    let* o := getVar obj in
    if decide (var_typ o = nilType) then setVarTyp obj Typ_Invalid else ret tt) lhs.

(** Lines 344-348 and 405-409: an operand that already carries an error. *)
Definition anyInvalid (rhs : list operand) : bool :=
  existsb (λ x, bool_decide (op_mode x = invalid)) rhs.

(** Lines 349-364: the diagnostic of a return statement with the wrong number
    of values. *)
Definition returnError (lhs : list VarRef) (rhs : list operand) (returnStmt : Stmt) : M unit :=
  let* (at_, qualifier) :=
    if decide (length lhs < length rhs) then
      let* x := fromOption (rhs !! length lhs) in
      ret (atExpr (op_expr x), "too many"%string)
    else if decide (0 < length rhs) then
      let* x := fromOption (rhs !! (length rhs - 1)) in
      ret (atExpr (op_expr x), "not enough"%string)
    else ret (atStmt returnStmt, "not enough"%string) in
  let* have := fromOption (typesSummary (operandTypes rhs) false) in
  let* vts := varTypes lhs in
  let* want := fromOption (typesSummary vts false) in
  report WrongResultCount
    [(at_, "%s return values"%string, [ArgString qualifier]);
     (atPos nopos, "have %s"%string, [ArgString have]);
     (atPos nopos, "want %s"%string, [ArgString want])].

(** [initVars(lhs, orig_rhs, returnStmt)] *)
Definition initVars (lhs : list VarRef) (orig_rhs : list Expr) (returnStmt : option Stmt) : M unit :=
  let* (rhs, commaOk) :=
    call (exprList orig_rhs (bool_decide (length lhs = 2) && bool_decide (returnStmt = None))) in
  if decide (length lhs ≠ length rhs) then
    invalidateVars lhs ;;;
    if anyInvalid rhs then ret tt
    else
      match returnStmt with
      | Some st => returnError lhs rhs st
      | None => assignError orig_rhs (Z.of_nat (length lhs)) (Z.of_nat (length rhs))
      end
  else
    let context := if decide (returnStmt ≠ None) then "return statement"%string
                   else "assignment"%string in
    if commaOk : bool then
      let* l0 := fromOption (lhs !! 0) in
      let* r0 := fromOption (rhs !! 0) in
      let* (a0, _) := initVar l0 r0 context in
      let* l1 := fromOption (lhs !! 1) in
      let* r1 := fromOption (rhs !! 1) in
      let* (a1, _) := initVar l1 r1 context in
      let* e0 := fromOption (orig_rhs !! 0) in
      modify (recordCommaOkTypes e0 (a0, a1))
    else
      let* ok := forRange (λ i l ok,
        let* x := fromOption (rhs !! i) in
        let* (T, _) := initVar l x context in
        ret (if decide (T = nilType) then false else ok)) 0 lhs true in
      if ok : bool then ret tt
      else forEach (λ l, setVarUsed l true) lhs.

(** Lines 433-442: mark the same-package variables named on the left-hand
    side as used. *)
Definition markUsed (lhs : list Expr) : M unit :=
  forEach (λ l,
    match asName (unparen l) with
    | Some name =>
        let* obj := gets (lookup name) in
        match obj ≫= asVar with
        | Some v =>
            let* vv := getVar v in
            let* p := gets pkg in
            if decide (var_pkg vv = p) then setVarUsed v true else ret tt
        | None => ret tt
        end
    | None => ret tt
    end) lhs.

(** [assignVars(lhs, orig_rhs)] *)
Definition assignVars (lhs orig_rhs : list Expr) : M unit :=
  let* (rhs, commaOk) := call (exprList orig_rhs (bool_decide (length lhs = 2))) in
  if decide (length lhs ≠ length rhs) then
    modify (use lhs) ;;;
    if anyInvalid rhs then ret tt
    else assignError orig_rhs (Z.of_nat (length lhs)) (Z.of_nat (length rhs))
  else if commaOk : bool then
    let* l0 := fromOption (lhs !! 0) in
    let* r0 := fromOption (rhs !! 0) in
    let* (a0, _) := assignVar l0 r0 in
    let* l1 := fromOption (lhs !! 1) in
    let* r1 := fromOption (rhs !! 1) in
    let* (a1, _) := assignVar l1 r1 in
    let* e0 := fromOption (orig_rhs !! 0) in
    modify (recordCommaOkTypes e0 (a0, a1))
  else
    let* ok := forRange (λ i l ok,
      let* x := fromOption (rhs !! i) in
      let* (T, _) := assignVar l x in
      ret (if decide (T = nilType) then false else ok)) 0 lhs true in
    if ok : bool then ret tt
    else markUsed lhs.

(** ** [shortVarDecl] *)

(** The variables the first loop of [shortVarDecl] assigns. [lhsVars] has a
    nil entry where the left-hand side is invalid. *)
Record lhsState := mkLhs {
  seen : gmap string bool;
  lhsVars : list (option VarRef);
  newVars : list VarRef;
  hasErr : bool
}.

(** One iteration of lines 470-512; a [continue] ends the iteration with the
    state reached. *)
Definition collectLhs_step (scope : Scope) (i : nat) (lhs : Expr) (st : lhsState) : M lhsState :=
  match asName lhs with
  | None =>
      modify (use [lhs]) ;;;
      errorf (atExpr (Some lhs)) BadDecl "non-name %s on left side of :=" [ArgExpr (Some lhs)] ;;;
      ret (mkLhs (seen st) (lhsVars st) (newVars st) true)
  | Some name =>
      if bool_decide (name ≠ "_"%string) && default false (seen st !! name) then
        errorf (atExpr (Some lhs)) RepeatedDecl "%s repeated on left side of :="
          [ArgExpr (Some lhs)] ;;;
        ret (mkLhs (seen st) (lhsVars st) (newVars st) true)
      else
        let seen' := if decide (name ≠ "_"%string) then <[name := true]> (seen st)
                     else seen st in
        let* alt := gets (Scope_Lookup scope name) in
        match alt with
        | Some alt =>
            modify (recordUse lhs alt) ;;;
            match asVar alt with
            | Some obj =>
                ret (mkLhs seen' (<[i := Some obj]> (lhsVars st)) (newVars st) (hasErr st))
            | None =>
                errorf (atExpr (Some lhs)) UnassignableOperand "cannot assign to %s"
                  [ArgExpr (Some lhs)] ;;;
                ret (mkLhs seen' (lhsVars st) (newVars st) true)
            end
        | None =>
            let* p := gets pkg in
            let* obj := call (NewVar (Expr_Pos lhs) p name nilType) in
            let newVars' := if decide (name ≠ "_"%string) then newVars st ++ [obj]
                            else newVars st in
            modify (recordDef lhs (Some obj)) ;;;
            ret (mkLhs seen' (<[i := Some obj]> (lhsVars st)) newVars' (hasErr st))
        end
  end.

(** The state of the loop variables before the first iteration. *)
Definition lhsInit (lhs : list Expr) : lhsState :=
  mkLhs ∅ (replicate (length lhs) None) [] false.

(** Lines 466-512: collect the left-hand side variables. *)
Definition collectLhs (scope : Scope) (lhs : list Expr) : M lhsState :=
  forRange (collectLhs_step scope) 0 lhs (lhsInit lhs).

(** Lines 515-519: a dummy variable where the left-hand side is invalid. The
    loop leaves no nil entry, so its result is a list of variables. *)
Definition fillDummies (lhs : list Expr) (vars : list (option VarRef)) : M (list VarRef) :=
  forRange (λ i obj acc,
    match obj with
    | Some v => ret (acc ++ [v])
    | None =>
        let* e := fromOption (lhs !! i) in
        let* p := gets pkg in
        let* v := call (NewVar (Expr_Pos e) p "_" nilType) in
        ret (acc ++ [v])
    end) 0 vars [].

(** [shortVarDecl(pos, lhs, rhs)] *)
Definition shortVarDecl (pos : Pos) (lhs rhs : list Expr) : M unit :=
  let* top := gets delayedLen in
  let* scope := gets scope in
  let* st := collectLhs scope lhs in
  let* vars := fillDummies lhs (lhsVars st) in
  initVars vars rhs None ;;;
  modify (processDelayed top) ;;;
  if bool_decide (length (newVars st) = 0) && negb (hasErr st) then
    softErrorf (atPos pos) NoNewVar "no new variables on left side of :=" []
  else
    let* last_rhs := fromOption (rhs !! (length rhs - 1)) in
    let scopePos := EndPos last_rhs in
    forEach (λ obj, modify (declare scope obj scopePos)) (newVars st).

End Assignments.

Arguments usedAt : simpl never.
Arguments typAt : simpl never.

(** ** The vocabulary of the statements

    The diagnostics the file reports, by line, and what an operand, a
    variable and the checker look like after the steps the properties below
    speak about. *)

Section Vocabulary.
Context `{CO : Collaborators}.

(** A consultation of [implicitTypeAndValue]. *)
Definition is_implicit_query (e : Event) : bool :=
  match e with
  | EvImplicit _ _ => true
  | _ => false
  end.

(** The advisory diagnostic of line 80. *)
Definition genericDiag (x : operand) (context : string) : Diag :=
  mkDiag WrongTypeArgCount false
    [(atOperand x, "cannot use generic function %s without instantiation in %s"%string,
      [ArgOperand x; ArgString context])].

(** The diagnostic of lines 93 and 95. *)
Definition notAssignableDiag (x : operand) (T : GoType) (context : string)
    (code : Code) (cause : string) : Diag :=
  if decide (cause = ""%string) then
    mkDiag code false
      [(atOperand x, "cannot use %s as %s value in %s"%string,
        [ArgOperand x; ArgType T; ArgString context])]
  else
    mkDiag code false
      [(atOperand x, "cannot use %s as %s value in %s: %s"%string,
        [ArgOperand x; ArgType T; ArgString context; ArgString cause])].

(** The diagnostic of line 32. *)
Definition cannotAssignDiag (x : operand) (T : GoType) (context : string) : Diag :=
  mkDiag IncompatibleAssign false
    [(atOperand x, "cannot assign %s to %s in %s"%string,
      [ArgOperand x; ArgType T; ArgString context])].

(** The diagnostic of line 45. *)
Definition untypedNilDiag (x : operand) (context : string) : Diag :=
  mkDiag UntypedNilUse false
    [(atOperand x, "use of untyped nil in %s"%string, [ArgString context])].

(** The events of line 80: the advisory diagnostic, for a generic function
    value. *)
Definition genericEvents (x : operand) (context : string) : list Event :=
  match underSignature (op_typ x) with
  | Some (S _) => [EvReport (genericDiag x context)]
  | _ => []
  end.

(** Lines 37-51: the conversion target of an untyped operand. *)
Definition convTarget (x : operand) (T : GoType) : GoType :=
  if negb (isNil x) && (bool_decide (T = nilType) || isNonTypeParamInterface T)
  then Default (op_typ x) else T.

(** Lines 54-63: the diagnostic of a failed conversion. *)
Definition convDiag (code : Code) (x : operand) (target : GoType) (context : string) : Diag :=
  let args := [ArgOperand x; ArgType target; ArgString context] in
  match code with
  | TruncatedFloat =>
      mkDiag TruncatedFloat false
        [(atOperand x, "cannot use %s as %s value in %s (truncated)"%string, args)]
  | NumericOverflow =>
      mkDiag NumericOverflow false
        [(atOperand x, "cannot use %s as %s value in %s (overflows)"%string, args)]
  | _ =>
      mkDiag IncompatibleAssign false
        [(atOperand x, "cannot use %s as %s value in %s"%string, args)]
  end.

(** Lines 67-74: the operand and the checker after a successful conversion. *)
Definition converted (x : operand) (newType : GoType) (val : option Value) : operand :=
  let x := match val with Some v => set_val v x | None => x end in
  if decide (newType ≠ op_typ x) then set_typ newType x else x.

Definition recorded (x : operand) (newType : GoType) (val : option Value) (s : Checker)
  : Checker :=
  let s := match val with Some v => updateExprVal (op_expr x) v s | None => s end in
  if decide (newType ≠ op_typ x) then updateExprType (op_expr x) newType false s else s.

(** An event that is not a soft diagnostic. *)
Definition hard (e : Event) : bool :=
  match e with
  | EvReport d => negb (d_soft d)
  | _ => true
  end.

(** A variable after lines 338-341. *)
Definition invalidated (w : Var) : Var :=
  mkVar (var_pos w) (var_pkg w) (var_name w)
    (if decide (var_typ w = nilType) then Typ_Invalid else var_typ w) true.

(** The diagnostic of lines 358-363. *)
Definition returnDiag (at_ : poser) (qualifier have want : string) : Diag :=
  mkDiag WrongResultCount false
    [(at_, "%s return values"%string, [ArgString qualifier]);
     (atPos nopos, "have %s"%string, [ArgString have]);
     (atPos nopos, "want %s"%string, [ArgString want])].

(** The diagnostic of line 527. *)
Definition noNewVarDiag (pos : Pos) : Diag :=
  mkDiag NoNewVar true [(atPos pos, "no new variables on left side of :="%string, [])].

(** The failure paths of [initConst], for the operand [x'] that the
    delegated [assignment] leaves: the guard of line 102, the operand that is
    not a constant, the failed assignment. *)
Definition initConst_failed (lhs : Const) (x x' : operand) : Prop :=
  op_mode x = invalid ∨ op_typ x = Typ_Invalid ∨ const_typ lhs = Typ_Invalid
  ∨ op_mode x ≠ constant_ ∨ op_mode x' = invalid.

(** Whether a trace has a diagnostic. *)
Definition has_report (tr : list Event) : bool := existsb is_report tr.

End Vocabulary.

(** ** More vocabulary: the diagnostics of [lhsVar], [assignError] and
    [shortVarDecl] *)

Section Diagnostics.
Context `{CO : Collaborators}.

(** The diagnostic of line 221. *)
Definition fieldInMapDiag (x : operand) : Diag :=
  mkDiag UnaddressableFieldAssign false
    [(atOperand x, "cannot assign to struct field %s in map"%string, [ArgExpr (op_expr x)])].

(** The diagnostic of line 225. *)
Definition cannotAssignToDiag (x : operand) : Diag :=
  mkDiag UnassignableOperand false
    [(atOperand x, "cannot assign to %s"%string, [ArgOperand x])].

(** The diagnostic of line 323, for a right-hand side that is one call. *)
Definition mismatchCallDiag (rhs0 Fun : Expr) (nvars nvals : Z) : Diag :=
  mkDiag WrongAssignCount false
    [(atExpr (Some rhs0), "assignment mismatch: %s but %s returns %s"%string,
      [ArgString (measure nvars "variable"); ArgExpr (Some Fun);
       ArgString (measure nvals "value")])].

(** The diagnostic of line 327. *)
Definition mismatchDiag (rhs0 : Expr) (nvars nvals : Z) : Diag :=
  mkDiag WrongAssignCount false
    [(atExpr (Some rhs0), "assignment mismatch: %s but %s"%string,
      [ArgString (measure nvars "variable"); ArgString (measure nvals "value")])].

(** The diagnostic of line 474. *)
Definition nonNameDiag (e : Expr) : Diag :=
  mkDiag BadDecl false
    [(atExpr (Some e), "non-name %s on left side of :="%string, [ArgExpr (Some e)])].

(** The diagnostic of line 482. *)
Definition repeatedDiag (e : Expr) : Diag :=
  mkDiag RepeatedDecl false
    [(atExpr (Some e), "%s repeated on left side of :="%string, [ArgExpr (Some e)])].

(** The called function of a right-hand side that is a single, possibly
    parenthesized, call (lines 321-322). *)
Definition singleCall (rhs : list Expr) : option Expr :=
  match rhs with
  | [rhs0] => match unparen rhs0 with CallExpr Fun _ => Some Fun | _ => None end
  | _ => None
  end.

(** The modes [lhsVar] accepts (line 214). *)
Definition addressable (m : operandMode) : bool :=
  match m with
  | variable | mapindex => true
  | _ => false
  end.

(** Lines 184-203: the checker after the evaluation of [lhs] in [s] gave
    [s1], with the used flag of the same-package variable that [lhs] names,
    if any, put back to its value in [s]. *)
Definition lhsRestore (lhs : Expr) (s s1 : Checker) : Checker :=
  match asName (unparen lhs) with
  | Some name =>
      match lookup name s ≫= asVar with
      | Some w =>
          if decide (var_pkg (heap s w) = pkg s) then usedAt w (var_used (heap s w)) s1
          else s1
      | None => s1
      end
  | None => s1
  end.

(** The string of one type in a summary that is not variadic: lines 281-303
    without the case of line 298. *)
Definition typeText (t : GoType) : string :=
  let s :=
    if bool_decide (t = nilType) || bool_decide (t = Typ_Invalid) then "unknown type"%string
    else if isUntyped t then
      if isNumeric t then "number"%string
      else strings_Replace (basicName t) "untyped " ""
    else EmptyString in
  if decide (s = EmptyString) then typeString t else s.

(** Whether the expression at index [j] of a left-hand side is a name other
    than "_" that an earlier expression of the left-hand side is as well:
    what the map [seen] of lines 466 and 480-486 decides. *)
Definition repeated (lhs : list Expr) (j : nat) : bool :=
  match lhs !! j ≫= asName with
  | Some name =>
      bool_decide (name ≠ "_"%string) && bool_decide (Some name ∈ asName <$> take j lhs)
  | None => false
  end.

(** The diagnostic of line 500. *)
Definition notVarDiag (e : Expr) : Diag :=
  mkDiag UnassignableOperand false
    [(atExpr (Some e), "cannot assign to %s"%string, [ArgExpr (Some e)])].

(** The variables the fallback of [assignVars] (lines 433-442) marks, on the
    checker [s]: the variables of the package of the checker that an
    expression of the left-hand side names, parentheses aside. *)
Definition marksUsed (lhs : list Expr) (s : Checker) (w : VarRef) : Prop :=
  var_pkg (heap s w) = pkg s
  ∧ ∃ l name, l ∈ lhs ∧ asName (unparen l) = Some name ∧ lookup name s ≫= asVar = Some w.

End Diagnostics.

(** ** A small instance of the interfaces

    Enough of the type system and of the checker's collaborators to run the
    functions above on concrete statements. None of it is in the source file;
    each definition says which part of the specification it follows. *)
Module Mini.

(** Modelled from the spec: the type model of its section 3, which the source
    file only uses. The nil type, the invalid type, the untyped kinds nil,
    integer and string, the basic types [int], [int8] and [string], the empty
    interface, a pointer type, and a function type without and with type
    parameters. *)
Inductive ty :=
  | tNil
  | tInvalid
  | tUntypedNil
  | tUntypedInt
  | tUntypedString
  | tInt
  | tInt8
  | tString
  | tAny
  | tPtrInt
  | tFunc
  | tGenericFunc.

#[global] Instance ty_eq_dec : EqDecision ty.
Proof. solve_decision. Defined.

(** What the mini collaborators keep: the contents of the one scope and the
    next free variable address. *)
Record store := mkEnv {
  table : list (string * nat);
  fresh : nat
}.

(** Modelled from the spec: the untyped-constant kinds of its section 3. *)
Definition is_untyped (t : ty) : bool :=
  match t with
  | tUntypedNil | tUntypedInt | tUntypedString => true
  | _ => false
  end.

(** Modelled from the spec: the default type of an untyped kind (section 3:
    "untyped integer → the language's default signed integer type"). *)
Definition default_type (t : ty) : ty :=
  match t with
  | tUntypedInt => tInt
  | tUntypedString => tString
  | _ => t
  end.

(** Modelled from the spec: the classification predicates of its section 3
    on the types above. *)
#[global] Instance types : TypeSystem := {|
  GoType := ty;
  Value := Z;
  Env := store;
  nilType := tNil;
  Typ_Invalid := tInvalid;
  Typ_UntypedNil := tUntypedNil;
  isUntyped := is_untyped;
  isNumeric := λ t, bool_decide (t ∈ [tUntypedInt; tInt; tInt8]);
  isConstType := λ t, bool_decide (t ∈ [tUntypedInt; tUntypedString; tInt; tInt8; tString]);
  isNonTypeParamInterface := λ t, bool_decide (t = tAny);
  Default := default_type;
  underSignature := λ t,
    match t with
    | tFunc => Some 0
    | tGenericFunc => Some 1
    | _ => None
    end;
  basicName := λ t,
    match t with
    | tUntypedNil => "untyped nil"
    | tUntypedInt => "untyped int"
    | tUntypedString => "untyped string"
    | _ => ""
    end%string;
  sliceElem := λ _, None;
  typeString := λ t,
    match t with
    | tInt => "int"
    | tInt8 => "int8"
    | tString => "string"
    | tAny => "any"
    | tPtrInt => "*int"
    | tFunc => "func()"
    | tGenericFunc => "func[T any]()"
    | _ => "?"
    end%string
|}.

(** Modelled from the spec: the representable range of an integer type
    (section 4.1, step 3c: "value out of target's representable range"). *)
Definition representable (v : Z) (t : ty) : bool :=
  match t with
  | tInt => bool_decide (-2 ^ 63 ≤ v < 2 ^ 63)%Z
  | tInt8 => bool_decide (-128 ≤ v < 128)%Z
  | _ => false
  end.

(** The types that have a nil value. *)
Definition has_nil (t : ty) : bool := bool_decide (t ∈ [tAny; tPtrInt; tFunc; tGenericFunc]).

(** Modelled from the spec: [implicitTypeAndValue], the literal-to-target
    conversion of section 4.1, step 3c. It succeeds, possibly with a new type
    and value, or fails with "numeric overflow" for a value out of the
    target's range, or fails otherwise ([OtherCode 0]). An interface target
    yields the default type. *)
Definition implicit (x : operand) (target : ty) (s : Checker) : ty * option Z * Code :=
  if bool_decide (op_mode x = invalid) || negb (is_untyped (op_typ x))
     || bool_decide (target = tInvalid) then (op_typ x, None, Code0)
  else if is_untyped target then
    if decide (target = op_typ x) then (target, None, Code0) else (tNil, None, OtherCode 0)
  else if bool_decide (op_mode x = nilvalue) then
    if has_nil target then (target, None, Code0) else (tNil, None, OtherCode 0)
  else
    match target, op_typ x, op_val x with
    | (tInt | tInt8), tUntypedInt, Some v =>
        if representable v target then (target, Some v, Code0)
        else (tNil, None, NumericOverflow)
    | tString, tUntypedString, _ => (tString, None, Code0)
    | tAny, _, _ => (default_type (op_typ x), None, Code0)
    | _, _, _ => (tNil, None, OtherCode 0)
    end.

(** Modelled from the spec: the assignability oracle of sections 2 and 6,
    [assignableTo(operandType, targetType) → (ok, cause?, errorKind)]:
    identical types, any value to the empty interface, nil to a type that has
    nil. *)
Definition assignable (x : operand) (T : ty) (s : Checker) : bool * Code * string :=
  if bool_decide (op_mode x = invalid) || bool_decide (T = tInvalid) then (true, Code0, "")
  else if bool_decide (op_typ x = T) || bool_decide (T = tAny) then (true, Code0, "")
  else if bool_decide (op_typ x = tUntypedNil) && has_nil T then (true, Code0, "")
  else (false, IncompatibleAssign, ""%string).

(** Modelled from the spec: [lookupLocal(name)] and [lookupChain(name)] of
    section 6, for a single scope. *)
Definition find (name : string) (s : Checker) : option Object :=
  ObjVar <$> (list_to_map (M := gmap string nat) (table (env s)) !! name).

(** Modelled from the spec: the evaluator [evaluate(expr) → operand] of
    section 6. A name denotes the variable of the scope and counts as a use
    of it, the node [OtherExpr n] is the untyped integer constant [n], and the
    operand records the expression. *)
Definition eval (e : Expr) (s : Checker) : operand * Checker :=
  match unparen e with
  | Name _ name =>
      match find name s with
      | Some (ObjVar v) =>
          (mkOperand variable (Some e) (var_typ (heap s v)) None,
           with_heap (<[v := var_set_used true (heap s v)]> (heap s)) s)
      | _ => (mkOperand invalid (Some e) tInvalid None, s)
      end
  | OtherExpr n => (mkOperand constant_ (Some e) tUntypedInt (Some (Z.of_nat n)), s)
  | _ => (mkOperand value (Some e) tInt None, s)
  end.

(** The evaluation of a list of expressions, from left to right. *)
Fixpoint evalList (es : list Expr) (s : Checker) : list operand * Checker :=
  match es with
  | [] => ([], s)
  | e :: es' =>
      let '(x, s1) := eval e s in
      let '(xs, s2) := evalList es' s1 in
      (x :: xs, s2)
  end.

(** Modelled from the spec: [NewVar], "allocate a fresh variable with no
    declared type yet" (section 4.5, step 3); the variable is unused. *)
Definition alloc (pos : Pos) (p : Pkg) (name : string) (typ : ty) (s : Checker)
  : VarRef * Checker :=
  let v := fresh (env s) in
  (v, mkChecker (<[v := mkVar pos p name typ false]> (heap s)) (pkg s) (scope s)
        (mkEnv (table (env s)) (S v))).

(** Modelled from the spec: [insert(scope, var, visibleFromPosition)] of
    section 6. *)
Definition insert_var (sc : Scope) (v : VarRef) (pos : Pos) (s : Checker) : Checker :=
  mkChecker (heap s) (pkg s) (scope s)
    (mkEnv ((var_name (heap s v), v) :: table (env s)) (fresh (env s))).

(** The collaborators: single-value reduction leaves a single value as it
    is, an operand is nil when its mode says so, the recorders record
    nothing, there are no delayed actions, [exprList] never delivers the
    comma-ok form. *)
#[global] Instance collaborators : Collaborators := {|
  singleValue := λ x s, (x, s);
  isNil := λ x, bool_decide (op_mode x = nilvalue);
  implicitTypeAndValue := implicit;
  assignableTo := assignable;
  updateExprVal := λ _ _ s, s;
  updateExprType := λ _ _ _ s, s;
  recordDef := λ _ _ s, s;
  recordUse := λ _ _ s, s;
  recordCommaOkTypes := λ _ _ s, s;
  lookup := find;
  Scope_Lookup := λ _, find;
  expr := eval;
  exprList := λ es _ s, let '(xs, s1) := evalList es s in (xs, false, s1);
  use := λ _ s, s;
  delayedLen := λ _, 0;
  processDelayed := λ _ s, s;
  declare := insert_var;
  NewVar := alloc;
  Expr_Pos := λ _, nopos;
  EndPos := λ _, nopos
|}.

(** A checker of package 1 with an empty scope; variable addresses start
    at 0. *)
Definition blank : Var := mkVar nopos 0 "" tNil false.
Definition start : Checker := mkChecker (λ _, blank) 1 0 (mkEnv [] 0).

(** The untyped integer constant [2^100]. *)
Definition big : operand := mkOperand constant_ (Some (OtherExpr 0)) tUntypedInt (Some (2 ^ 100)%Z).

(** The untyped integer constant [5]. *)
Definition five : operand := mkOperand constant_ (Some (OtherExpr 5)) tUntypedInt (Some 5%Z).

(** The operand of the integer literal [n], as [eval] delivers it. *)
Definition lit (n : nat) : operand :=
  mkOperand constant_ (Some (OtherExpr n)) tUntypedInt (Some (Z.of_nat n)).

(** The operand of a use of a variable of type [int] in the expression [e]. *)
Definition int_var (e : Expr) : operand := mkOperand variable (Some e) tInt None.

(** The predeclared [nil]. *)
Definition nil_operand : operand := mkOperand nilvalue (Some (Name 0 "nil")) tUntypedNil None.

(** A value of a generic function type. *)
Definition generic_operand : operand := mkOperand value (Some (Name 0 "f")) tGenericFunc None.

(** An operand in a mode the file does not name: a type expression where a
    value is expected. *)
Definition odd_operand : operand := mkOperand (otherMode 0) (Some (Name 0 "T")) tInt None.

(** A checker with the variables [x : int] at address 0 and a variable [v]
    without a type at address 1, both unused, [x] in the scope. *)
Definition with_vars : Checker :=
  mkChecker (<[0 := mkVar nopos 1 "x" tInt false]>
              (<[1 := mkVar nopos 1 "v" tNil false]> (λ _, blank)))
    1 0 (mkEnv [("x"%string, 0)] 2).

(** The operand of a name that the scope does not hold, as [eval] delivers
    it. *)
Definition unknown (e : Expr) : operand := mkOperand invalid (Some e) tInvalid None.

(** The operand of an expression that is not a name and not a literal, as
    [eval] delivers it. *)
Definition int_value (e : Expr) : operand := mkOperand value (Some e) tInt None.

End Mini.

(** * Properties *)

(** ** Running a computation *)

Section Run.
Context `{TS : TypeSystem}.

Lemma pre_nil {A} (r : option (A * Checker * list Event)) : pre [] r = r.
Proof. by destruct r as [[[a s] tr]|]. Qed.

Lemma pre_pre {A} tr1 tr2 (r : option (A * Checker * list Event)) :
  pre tr1 (pre tr2 r) = pre (tr1 ++ tr2) r.
Proof. destruct r as [[[a s] tr]|]; simpl; [by rewrite app_assoc|done]. Qed.

Lemma pre_Some {A} tr (a : A) s tr' (r : option (A * Checker * list Event)) :
  pre tr r = Some (a, s, tr') ↔ ∃ tr2, r = Some (a, s, tr2) ∧ tr' = tr ++ tr2.
Proof.
  destruct r as [[[a0 s0] tr0]|]; simpl; split.
  - intros [= -> -> <-]. eauto.
  - intros (tr2 & [= -> -> ->] & ->). done.
  - done.
  - by intros (tr2 & ? & _).
Qed.

Lemma bind_ret {A B} (a : A) (k : A → M B) s : bind (ret a) k s = k a s.
Proof. unfold bind, ret. apply pre_nil. Qed.

Lemma bind_emit {B} e (k : unit → M B) s : bind (emit e) k s = pre [e] (k tt s).
Proof. done. Qed.

Lemma bind_gets {A B} (f : Checker → A) (k : A → M B) s : bind (gets f) k s = k (f s) s.
Proof. unfold bind, gets. apply pre_nil. Qed.

Lemma bind_modify {B} (f : Checker → Checker) (k : unit → M B) s :
  bind (modify f) k s = k tt (f s).
Proof. unfold bind, modify. apply pre_nil. Qed.

Lemma bind_call {A B} (f : Checker → A * Checker) (k : A → M B) s :
  bind (call f) k s = k (f s).1 (f s).2.
Proof. unfold bind, call. destruct (f s) as [a s1]. apply pre_nil. Qed.

Lemma bind_panic {A B} (k : A → M B) s : bind panic k s = None.
Proof. done. Qed.

Lemma bind_fromOption_Some {A B} (a : A) (k : A → M B) s :
  bind (fromOption (Some a)) k s = k a s.
Proof. apply bind_ret. Qed.

Lemma bind_bind {A B C} (m : M A) (k : A → M B) (h : B → M C) s :
  bind (bind m k) h s = bind m (λ a, bind (k a) h) s.
Proof.
  unfold bind. destruct (m s) as [[[a s1] tr1]|]; [|done].
  destruct (k a s1) as [[[b s2] tr2]|]; simpl; [|done].
  by rewrite pre_pre.
Qed.

(** A computation run to its end: the result, the state and the trace. *)
Lemma bind_Some {A B} (m : M A) (k : A → M B) s b s' tr :
  bind m k s = Some (b, s', tr) ↔
  ∃ a s1 tr1 tr2, m s = Some (a, s1, tr1) ∧ k a s1 = Some (b, s', tr2) ∧ tr = tr1 ++ tr2.
Proof.
  unfold bind. destruct (m s) as [[[a s1] tr1]|]; split.
  - intros (tr2 & E & ->)%pre_Some. by exists a, s1, tr1, tr2.
  - intros (a0 & s0 & tr0 & tr2 & [= -> -> ->] & E & ->). apply pre_Some. eauto.
  - done.
  - by intros (? & ? & ? & ? & ? & _).
Qed.

Lemma bind_run {A B} (m : M A) (k : A → M B) s a s1 tr1 :
  m s = Some (a, s1, tr1) → bind m k s = pre tr1 (k a s1).
Proof. unfold bind. by intros ->. Qed.

End Run.

Create Rewrite HintDb checker.
#[global] Hint Rewrite @bind_ret @bind_emit @bind_gets @bind_modify @bind_call
  @bind_panic @bind_fromOption_Some @bind_bind @pre_nil @pre_pre : checker.

Ltac mstep :=
  unfold errorf, softErrorf, report, setVarTyp, setVarUsed, getVar;
  autorewrite with checker; simpl.

Section Properties.
Context `{CO : Collaborators}.

(** ** The typed part of [assignment] *)

Lemma assignment_typed_blank x context s :
  assignment_typed x nilType context s = Some (x, s, genericEvents x context).
Proof.
  unfold assignment_typed, genericEvents.
  destruct (underSignature (op_typ x)) as [[|n]|]; mstep;
    destruct (decide (nilType = nilType)); done.
Qed.

Lemma assignment_typed_target x T context s ok code cause :
  T ≠ nilType →
  assignableTo x T s = (ok, code, cause) →
  assignment_typed x T context s =
    Some (if ok then x else set_mode invalid x, s,
          genericEvents x context ++ EvAssignable x T ::
          if ok then [] else [EvReport (notAssignableDiag x T context code cause)]).
Proof.
  intros HT E. unfold assignment_typed, genericEvents, notAssignableDiag.
  destruct (underSignature (op_typ x)) as [[|n]|]; mstep;
    destruct (decide (T = nilType)); try done; mstep; rewrite E;
    destruct ok; try done;
    destruct (decide (cause = ""%string)); mstep; done.
Qed.

Lemma assignment_typed_total x T context s :
  ∃ r tr, assignment_typed x T context s = Some (r, s, tr)
          ∧ Forall (λ e, is_implicit_query e = false) tr.
Proof.
  destruct (decide (T = nilType)) as [->|HT].
  - rewrite assignment_typed_blank. do 2 eexists. split; [done|].
    unfold genericEvents. destruct (underSignature (op_typ x)) as [[|n]|]; repeat constructor.
  - destruct (assignableTo x T s) as [[ok code] cause] eqn:E.
    rewrite (assignment_typed_target _ _ _ _ _ _ _ HT E). do 2 eexists. split; [done|].
    unfold genericEvents.
    destruct (underSignature (op_typ x)) as [[|n]|], ok; repeat constructor.
Qed.

(** ** [assignment] *)

(** [assignment], branch by branch. *)
Lemma assignment_eq x T context s :
  assignment x T context s =
    let '(x1, s1) := singleValue x s in
    if decide (op_mode x1 = invalid) then Some (x1, s1, [])
    else if negb (assignable_mode (op_mode x1)) then
      Some (x1, s1, [EvReport (cannotAssignDiag x1 T context)])
    else if isUntyped (op_typ x1) then
      if isNil x1 && bool_decide (T = nilType) then
        Some (set_mode invalid x1, s1, [EvReport (untypedNilDiag x1 context)])
      else
        let target := convTarget x1 T in
        let '(newType, val, code) := implicitTypeAndValue x1 target s1 in
        if decide (code ≠ Code0) then
          Some (set_mode invalid x1, s1,
                [EvImplicit x1 target; EvReport (convDiag code x1 target context)])
        else
          pre [EvImplicit x1 target]
            (assignment_typed (converted x1 newType val) T context
               (recorded x1 newType val s1))
    else assignment_typed x1 T context s1.
Proof.
  unfold assignment. mstep. destruct (singleValue x s) as [x1 s1]. simpl.
  destruct (decide (op_mode x1 = invalid)); [done|].
  destruct (assignable_mode (op_mode x1)); simpl; [|by mstep].
  destruct (isUntyped (op_typ x1)); [|done].
  destruct (isNil x1 && bool_decide (T = nilType)); [by mstep|].
  mstep. fold (convTarget x1 T).
  destruct (implicitTypeAndValue x1 (convTarget x1 T) s1) as [[newType val] code].
  destruct (decide (code ≠ Code0)).
  - unfold convDiag. destruct code; mstep; done.
  - unfold converted, recorded. f_equal.
    destruct val as [v|]; mstep;
      destruct (decide (newType ≠ op_typ x1)); mstep; done.
Qed.

(** [assignment] always returns. *)
Lemma assignment_total x T context s :
  ∃ x' s' tr, assignment x T context s = Some (x', s', tr).
Proof.
  rewrite assignment_eq. destruct (singleValue x s) as [x1 s1].
  destruct (decide (op_mode x1 = invalid)); [eauto|].
  destruct (negb (assignable_mode (op_mode x1))); [eauto|].
  destruct (isUntyped (op_typ x1)).
  - destruct (isNil x1 && bool_decide (T = nilType)); [eauto|]. cbv zeta.
    destruct (implicitTypeAndValue x1 (convTarget x1 T) s1) as [[newType val] code].
    destruct (decide (code ≠ Code0)); [eauto|].
    destruct (assignment_typed_total (converted x1 newType val) T context
                (recorded x1 newType val s1)) as (r & tr & -> & _). simpl. eauto.
  - destruct (assignment_typed_total x1 T context s1) as (r & tr & -> & _). eauto.
Qed.

(** What a conversion leaves in the operand: the type it gave, and the value
    it gave if it gave one. *)
Lemma converted_typ x newType val : op_typ (converted x newType val) = newType.
Proof.
  unfold converted. destruct val; simpl.
  - destruct (decide (newType ≠ op_typ x)) as [|Hn]; [done|]. simpl.
    by destruct (decide (newType = op_typ x)).
  - destruct (decide (newType ≠ op_typ x)) as [|Hn]; [done|].
    by destruct (decide (newType = op_typ x)).
Qed.

Lemma converted_val x newType val :
  op_val (converted x newType val) = match val with Some v => Some v | None => op_val x end.
Proof. unfold converted. destruct val; simpl; by destruct (decide _). Qed.

(** Lines 36-98 for an untyped operand that is not the nil assigned to the
    blank identifier: the outcome is decided by the answer of
    [implicitTypeAndValue] for the conversion target of lines 37-51. A
    failure is reported for that target and ends the call; a success puts
    the answer into the operand, records it, and hands the operand on to the
    typed part. *)
Lemma assignment_converts x T context s x1 s1 newType val code :
  singleValue x s = (x1, s1) →
  assignable_mode (op_mode x1) = true →
  isUntyped (op_typ x1) = true →
  isNil x1 && bool_decide (T = nilType) = false →
  implicitTypeAndValue x1 (convTarget x1 T) s1 = (newType, val, code) →
  (code ≠ Code0 →
     assignment x T context s =
       Some (set_mode invalid x1, s1,
             [EvImplicit x1 (convTarget x1 T);
              EvReport (convDiag code x1 (convTarget x1 T) context)]))
  ∧ (code = Code0 →
     ∃ x' tr,
       assignment x T context s =
         Some (x', recorded x1 newType val s1, EvImplicit x1 (convTarget x1 T) :: tr)
       ∧ assignment_typed (converted x1 newType val) T context (recorded x1 newType val s1)
           = Some (x', recorded x1 newType val s1, tr)
       ∧ (x' = converted x1 newType val ∨ x' = set_mode invalid (converted x1 newType val))
       ∧ Forall (λ e, is_implicit_query e = false) tr).
Proof.
  intros Hsv Hmode Hunt Hnil Himp.
  rewrite assignment_eq, Hsv, Hmode, Hunt, Hnil.
  destruct (decide (op_mode x1 = invalid)) as [E|_]; [by rewrite E in Hmode|].
  simpl. rewrite Himp. split.
  - intros Hc. by destruct (decide (code ≠ Code0)).
  - intros ->. destruct (decide (Code0 ≠ Code0)) as [Hc|_]; [done|].
    destruct (assignment_typed_total (converted x1 newType val) T context
                (recorded x1 newType val s1)) as (r & tr & E & Htr).
    exists r, tr. rewrite E. split; [done|]. split; [done|]. split; [|done].
    destruct (decide (T = nilType)) as [->|HT].
    + rewrite assignment_typed_blank in E. injection E as <- _. by left.
    + destruct (assignableTo (converted x1 newType val) T (recorded x1 newType val s1))
        as [[ok c] cause] eqn:Ha.
      rewrite (assignment_typed_target _ _ _ _ _ _ _ HT Ha) in E. injection E as <- _.
      destruct ok; [by left|by right].
Qed.

(** C1. In [assignment], an operand of an untyped-constant kind that is not
    the nil literal is converted to this target: the operand's default type
    if the target type is absent or a non-type-parameter interface, the given
    target type otherwise. It is the answer of the conversion for that target
    that decides the call: when the conversion fails, the failure is reported
    for that target and the operand is invalidated; when it succeeds, the
    operand takes the type, and the value if there is one, that the
    conversion to that target gave, the expression is recorded with them, and
    the check goes on with the converted operand. The conversion is asked for
    once. *)
Theorem assignment_conversion_target (x : operand) (T : GoType) (context : string)
    (s : Checker) (x1 : operand) (s1 : Checker) (target newType : GoType)
    (val : option Value) (code : Code) :
  singleValue x s = (x1, s1) →
  assignable_mode (op_mode x1) = true →
  isUntyped (op_typ x1) = true →
  isNil x1 = false →
  target = (if bool_decide (T = nilType) || isNonTypeParamInterface T
            then Default (op_typ x1) else T) →
  implicitTypeAndValue x1 target s1 = (newType, val, code) →
  (code ≠ Code0 →
     assignment x T context s =
       Some (set_mode invalid x1, s1,
             [EvImplicit x1 target; EvReport (convDiag code x1 target context)]))
  ∧ (code = Code0 →
     ∃ x' tr,
       assignment x T context s =
         Some (x', recorded x1 newType val s1, EvImplicit x1 target :: tr)
       ∧ assignment_typed (converted x1 newType val) T context (recorded x1 newType val s1)
           = Some (x', recorded x1 newType val s1, tr)
       ∧ op_typ x' = newType
       ∧ op_val x' = match val with Some v => Some v | None => op_val x1 end
       ∧ Forall (λ e, is_implicit_query e = false) tr).
Proof.
  intros Hsv Hmode Hunt Hnil Htarget Himp.
  assert (target = convTarget x1 T) as ->.
  { rewrite Htarget. unfold convTarget. by rewrite Hnil. }
  destruct (assignment_converts x T context s x1 s1 newType val code)
    as [Hfail Hok]; [done|done|done|by rewrite Hnil|done|].
  split; [exact Hfail|]. intros Hc.
  destruct (Hok Hc) as (x' & tr & E & Et & Hx & Hq).
  exists x', tr. split; [done|]. split; [done|].
  split; [by destruct Hx as [-> | ->]; simpl; apply converted_typ|].
  split; [by destruct Hx as [-> | ->]; simpl; apply converted_val|done].
Qed.

Lemma genericEvents_hard x context : Forall (λ e, hard e = true) (genericEvents x context).
Proof. unfold genericEvents. destruct (underSignature (op_typ x)) as [[|n]|]; repeat constructor. Qed.

Lemma genericEvents_no_query x context :
  Forall (λ e, is_assignable_query e = false) (genericEvents x context).
Proof. unfold genericEvents. destruct (underSignature (op_typ x)) as [[|n]|]; repeat constructor. Qed.

Lemma genericEvents_codes x context :
  Forall (λ d, d_code d = WrongTypeArgCount) (reports (genericEvents x context)).
Proof. unfold genericEvents. destruct (underSignature (op_typ x)) as [[|n]|]; repeat constructor. Qed.

Lemma converted_mode x newType val : op_mode (converted x newType val) = op_mode x.
Proof. unfold converted. destruct val; simpl; case_decide; done. Qed.

(** The default branch of the mode switch (lines 29-33): the diagnostic is
    reported and the operand is returned as it is. *)
Lemma assignment_unexpected_mode x T context s x1 s1 :
  singleValue x s = (x1, s1) →
  op_mode x1 ≠ invalid →
  assignable_mode (op_mode x1) = false →
  assignment x T context s = Some (x1, s1, [EvReport (cannotAssignDiag x1 T context)]).
Proof.
  intros Hsv Hinv Hmode. rewrite assignment_eq, Hsv, Hmode.
  by destruct (decide (op_mode x1 = invalid)).
Qed.

(** C2, as amended. [assignment] with an absent target type, for an operand
    in an assignable mode: no assignability query is made and no expression
    is evaluated (the checker changes by the recording of a converted
    constant at most); the operand stays valid, with the advisory for generic
    functions as the only possible diagnostic, if it is typed or if it is an
    untyped constant other than nil that converts to its default type; it is
    invalidated, with the failed conversion to the default type as the one
    diagnostic reported, if that conversion fails; and the untyped nil is
    reported as such and invalidated. *)
Theorem assignment_blank (x : operand) (context : string) (s : Checker)
    (x1 : operand) (s1 : Checker) :
  singleValue x s = (x1, s1) →
  assignable_mode (op_mode x1) = true →
  ∃ x' s' tr,
    assignment x nilType context s = Some (x', s', tr)
    ∧ Forall (λ e, is_assignable_query e = false) tr
    ∧ (s' = s1 ∨ ∃ newType val, s' = recorded x1 newType val s1)
    ∧ (isUntyped (op_typ x1) = false
       ∨ (isNil x1 = false ∧ (implicitTypeAndValue x1 (Default (op_typ x1)) s1).2 = Code0) →
       op_mode x' = op_mode x1
       ∧ Forall (λ d, d_code d = WrongTypeArgCount) (reports tr))
    ∧ (isUntyped (op_typ x1) = true → isNil x1 = false →
       (implicitTypeAndValue x1 (Default (op_typ x1)) s1).2 ≠ Code0 →
       op_mode x' = invalid
       ∧ x' = set_mode invalid x1
       ∧ s' = s1
       ∧ tr = [EvImplicit x1 (Default (op_typ x1));
               EvReport (convDiag (implicitTypeAndValue x1 (Default (op_typ x1)) s1).2 x1
                           (Default (op_typ x1)) context)])
    ∧ (isUntyped (op_typ x1) = true → isNil x1 = true →
       x' = set_mode invalid x1 ∧ tr = [EvReport (untypedNilDiag x1 context)]).
Proof.
  intros Hsv Hmode. rewrite assignment_eq, Hsv, Hmode.
  destruct (decide (op_mode x1 = invalid)) as [E|_]; [by rewrite E in Hmode|]. simpl.
  destruct (isUntyped (op_typ x1)) eqn:Hunt.
  - rewrite bool_decide_eq_true_2 by done. rewrite andb_true_r.
    destruct (isNil x1) eqn:Hnil.
    + do 3 eexists. split; [done|]. split; [repeat constructor|]. split; [by left|].
      split; [intros [?|[? _]]; done|]. split; done.
    + unfold convTarget. rewrite Hnil, bool_decide_eq_true_2 by done. simpl.
      destruct (implicitTypeAndValue x1 (Default (op_typ x1)) s1) as [[newType val] code].
      destruct (decide (code ≠ Code0)) as [Hc|Hc].
      * do 3 eexists. split; [done|]. split; [repeat constructor|]. split; [by left|].
        split; [intros [?|[_ ?]]; done|]. split; done.
      * rewrite assignment_typed_blank. simpl. do 3 eexists. split; [done|].
        split; [constructor; [done|apply genericEvents_no_query]|].
        split; [right; eauto|].
        split; [intros _; split; [apply converted_mode|apply genericEvents_codes]|].
        split; [|done]. intros _ _ ?. by destruct Hc.
  - rewrite assignment_typed_blank. do 3 eexists. split; [done|].
    split; [apply genericEvents_no_query|]. split; [by left|].
    split; [intros _; split; [done|apply genericEvents_codes]|]. split; done.
Qed.

(** C4. In [assignment], a value of a generic function type is reported
    ("cannot use generic function ... without instantiation") and stays
    valid; with an absent target type nothing else happens, and with a target
    type the assignability of the same operand is queried next and alone
    decides whether the operand is invalidated. *)
Theorem assignment_generic_function (x : operand) (T : GoType) (context : string)
    (s : Checker) (x1 : operand) (s1 : Checker) (n : nat) :
  singleValue x s = (x1, s1) →
  assignable_mode (op_mode x1) = true →
  isUntyped (op_typ x1) = false →
  underSignature (op_typ x1) = Some (S n) →
  (T = nilType →
     assignment x T context s = Some (x1, s1, [EvReport (genericDiag x1 context)]))
  ∧ (T ≠ nilType →
     ∀ ok code cause, assignableTo x1 T s1 = (ok, code, cause) →
       assignment x T context s =
         Some (if ok then x1 else set_mode invalid x1, s1,
               EvReport (genericDiag x1 context) :: EvAssignable x1 T ::
               if ok then [] else [EvReport (notAssignableDiag x1 T context code cause)])).
Proof.
  intros Hsv Hmode Hunt Hsig.
  assert (genericEvents x1 context = [EvReport (genericDiag x1 context)]) as Hev
    by (unfold genericEvents; by rewrite Hsig).
  split.
  - intros ->. rewrite assignment_eq, Hsv, Hmode, Hunt.
    destruct (decide (op_mode x1 = invalid)) as [E|_]; [by rewrite E in Hmode|]. simpl.
    by rewrite assignment_typed_blank, Hev.
  - intros HT ok code cause Ha. rewrite assignment_eq, Hsv, Hmode, Hunt.
    destruct (decide (op_mode x1 = invalid)) as [E|_]; [by rewrite E in Hmode|]. simpl.
    by rewrite (assignment_typed_target _ _ _ _ _ _ _ HT Ha), Hev.
Qed.

(** Every event of [assignment] is a consultation or a hard diagnostic. *)
Lemma assignment_typed_hard x T context s r s' tr :
  assignment_typed x T context s = Some (r, s', tr) → Forall (λ e, hard e = true) tr.
Proof.
  destruct (decide (T = nilType)) as [->|HT].
  - rewrite assignment_typed_blank. intros [= <- <- <-]. apply genericEvents_hard.
  - destruct (assignableTo x T s) as [[ok code] cause] eqn:E.
    rewrite (assignment_typed_target _ _ _ _ _ _ _ HT E). intros [= <- <- <-].
    apply Forall_app. split; [apply genericEvents_hard|].
    unfold notAssignableDiag. destruct ok; repeat constructor. by case_decide.
Qed.

Lemma assignment_hard x T context s x' s' tr :
  assignment x T context s = Some (x', s', tr) → Forall (λ e, hard e = true) tr.
Proof.
  rewrite assignment_eq. destruct (singleValue x s) as [x1 s1].
  destruct (decide (op_mode x1 = invalid)); [by intros [= <- <- <-]|].
  destruct (negb (assignable_mode (op_mode x1))); [intros [= <- <- <-]; by repeat constructor|].
  destruct (isUntyped (op_typ x1)); [|apply assignment_typed_hard].
  destruct (isNil x1 && bool_decide (T = nilType));
    [intros [= <- <- <-]; by repeat constructor|]. cbv zeta.
  destruct (implicitTypeAndValue x1 (convTarget x1 T) s1) as [[newType val] code].
  destruct (decide (code ≠ Code0)).
  - intros [= <- <- <-]. repeat constructor. unfold convDiag. by destruct code.
  - intros (tr2 & E & ->)%pre_Some. constructor; [done|].
    eapply assignment_typed_hard, E.
Qed.

(** ** [initConst] *)

Lemma const_invalidate_val c : const_val (const_invalidate c) = const_val c.
Proof. unfold const_invalidate. by case_decide. Qed.

Lemma const_invalidate_typ c :
  const_typ (const_invalidate c) =
    if decide (const_typ c = nilType) then Typ_Invalid else const_typ c.
Proof. unfold const_invalidate. by case_decide. Qed.

(** C10. [initConst] leaves the value of the constant as it is on every
    failure path: when the operand is invalid, when the operand's or the
    constant's type is the invalid type, when the operand is not a constant,
    and when the delegated [assignment] fails. The value is the operand's
    value exactly when every check succeeds. On a failure path the declared
    type changes at most from unset to the invalid type: a type that is set is
    never changed, and an unset one is forced to the invalid type on failure
    (for the failure of the delegated [assignment], which line 121 makes an
    assignment of the operand to its own type, provided such an assignment
    does not fail). A constant operand has a constant type, which the [assert]
    of line 117 checks. *)
Theorem initConst_value_frame (lhs : Const) (x : operand) (s : Checker) :
  (op_mode x = constant_ → isConstType (op_typ x) = true) →
  ∃ lhs' x' s' tr,
    initConst lhs x s = Some ((lhs', x'), s', tr)
    ∧ (initConst_failed lhs x x' → const_val lhs' = const_val lhs)
    ∧ (¬ initConst_failed lhs x x' → const_val lhs' = op_val x')
    ∧ (const_typ lhs ≠ nilType → const_typ lhs' = const_typ lhs)
    ∧ (initConst_failed lhs x x' →
       const_typ lhs = nilType →
       (∀ x2 s2 tr2,
          assignment x (op_typ x) "constant declaration" s = Some (x2, s2, tr2) →
          op_mode x2 ≠ invalid) →
       const_typ lhs' = Typ_Invalid).
Proof.
  intros Hassert. unfold initConst, initConst_failed.
  destruct (bool_decide (op_mode x = invalid) || bool_decide (op_typ x = Typ_Invalid)
            || bool_decide (const_typ lhs = Typ_Invalid)) eqn:Hguard.
  { do 4 eexists. split; [done|].
    rewrite const_invalidate_val, const_invalidate_typ.
    split; [done|]. split.
    - intros Hn. destruct Hn.
      apply orb_true_iff in Hguard as [[?%bool_decide_eq_true|?%bool_decide_eq_true]%orb_true_iff
                                       |?%bool_decide_eq_true]; auto.
    - split; intros; destruct (decide (const_typ lhs = nilType)); done. }
  apply orb_false_iff in Hguard as [[Hm%bool_decide_eq_false Ht%bool_decide_eq_false]%orb_false_iff
                                    Hl%bool_decide_eq_false].
  destruct (decide (op_mode x ≠ constant_)) as [Hc|Hc].
  { mstep. do 4 eexists. split; [done|].
    rewrite const_invalidate_val, const_invalidate_typ.
    split; [done|]. split; [intros Hn; destruct Hn; auto|].
    split; intros; destruct (decide (const_typ lhs = nilType)); done. }
  apply dec_stable in Hc. rewrite (Hassert Hc). simpl.
  destruct (assignment_total x
              (const_typ (if decide (const_typ lhs = nilType)
                          then const_set_typ (op_typ x) lhs else lhs))
              "constant declaration" s) as (x' & s' & tr & E).
  rewrite (bind_run _ _ _ _ _ _ E).
  destruct (decide (op_mode x' = invalid)) as [Hx'|Hx']; simpl; rewrite app_nil_r.
  - do 4 eexists. split; [done|].
    split; [intros _; by destruct (decide (const_typ lhs = nilType))|].
    split; [intros Hn; destruct Hn; auto|].
    split; [intros; by destruct (decide (const_typ lhs = nilType))|].
    intros _ Hnil Hself. destruct (decide (const_typ lhs = nilType)); [|done].
    simpl in E. by destruct (Hself _ _ _ E).
  - do 4 eexists. split; [done|].
    split; [intros [?|[?|[?|[?|?]]]]; done|]. split; [done|].
    split; [intros; by destruct (decide (const_typ lhs = nilType))|].
    intros [?|[?|[?|[?|?]]]]; done.
Qed.

(** ** [initVar] *)

Lemma heap_usedAt v b s w :
  heap (usedAt v b s) w = if decide (v = w) then var_set_used b (heap s v) else heap s w.
Proof.
  unfold usedAt. simpl. destruct (decide (v = w)) as [->|Hne].
  - apply fn_lookup_insert.
  - by apply fn_lookup_insert_ne.
Qed.

Lemma heap_typAt v t s w :
  heap (typAt v t s) w = if decide (v = w) then var_set_typ t (heap s v) else heap s w.
Proof.
  unfold typAt. simpl. destruct (decide (v = w)) as [->|Hne].
  - apply fn_lookup_insert.
  - by apply fn_lookup_insert_ne.
Qed.

(** Lines 158-164, run. *)
Lemma initVar_assign_eq lhs x context s x' s' tr :
  assignment x (var_typ (heap s lhs)) context s = Some (x', s', tr) →
  initVar_assign lhs x context s =
    Some (if decide (op_mode x' = invalid)
          then ((nilType, x'), usedAt lhs true s', tr)
          else ((op_typ x', x'), s', tr)).
Proof.
  intros E. unfold initVar_assign. mstep. rewrite (bind_run _ _ _ _ _ _ E).
  destruct (decide (op_mode x' = invalid)); mstep; by rewrite app_nil_r.
Qed.

Lemma initVar_assign_total lhs x context s :
  ∃ r x' s' tr, initVar_assign lhs x context s = Some ((r, x'), s', tr)
                ∧ Forall (λ e, hard e = true) tr.
Proof.
  destruct (assignment_total x (var_typ (heap s lhs)) context s) as (x' & s' & tr & E).
  rewrite (initVar_assign_eq _ _ _ _ _ _ _ E).
  pose proof (assignment_hard _ _ _ _ _ _ _ E).
  destruct (decide (op_mode x' = invalid)); eauto 10.
Qed.

(** [initVar] always returns, and reports hard diagnostics only. *)
Lemma initVar_total lhs x context s :
  ∃ r x' s' tr, initVar lhs x context s = Some ((r, x'), s', tr)
                ∧ Forall (λ e, hard e = true) tr.
Proof.
  unfold initVar. mstep.
  destruct (bool_decide (op_mode x = invalid) || bool_decide (op_typ x = Typ_Invalid)
            || bool_decide (var_typ (heap s lhs) = Typ_Invalid)).
  { destruct (decide (var_typ (heap s lhs) = nilType)); mstep; eauto 10. }
  destruct (decide (var_typ (heap s lhs) = nilType)); [|apply initVar_assign_total].
  destruct (isUntyped (op_typ x)).
  - destruct (decide (op_typ x = Typ_UntypedNil)); mstep.
    + do 4 eexists. split; [done|]. by repeat constructor.
    + apply initVar_assign_total.
  - mstep. apply initVar_assign_total.
Qed.

(** The failure paths of [initVar] that mark the variable as used: the guard
    of line 133 and a failed [assignment]. *)
Lemma initVar_marks_used lhs x context s r x' s' tr :
  initVar lhs x context s = Some ((r, x'), s', tr) →
  op_mode x = invalid ∨ op_typ x = Typ_Invalid ∨ var_typ (heap s lhs) = Typ_Invalid
  ∨ op_mode x' = invalid →
  r = nilType ∧ var_used (heap s' lhs) = true.
Proof.
  assert (∀ s0, initVar_assign lhs x context s0 = Some ((r, x'), s', tr) →
                op_mode x' = invalid → r = nilType ∧ var_used (heap s' lhs) = true) as Hassign.
  { intros s0 E Hinv.
    destruct (assignment_total x (var_typ (heap s0 lhs)) context s0) as (x2 & s2 & tr2 & E2).
    rewrite (initVar_assign_eq _ _ _ _ _ _ _ E2) in E.
    destruct (decide (op_mode x2 = invalid)); simplify_eq; try done.
    rewrite heap_usedAt. by destruct (decide (lhs = lhs)). }
  unfold initVar. mstep.
  destruct (bool_decide (op_mode x = invalid) || bool_decide (op_typ x = Typ_Invalid)
            || bool_decide (var_typ (heap s lhs) = Typ_Invalid)) eqn:Hguard.
  { destruct (decide (var_typ (heap s lhs) = nilType)); mstep; intros [= <- <- <- <-] _;
      rewrite heap_usedAt; by destruct (decide (lhs = lhs)). }
  apply orb_false_iff in Hguard as [[Hm%bool_decide_eq_false Ht%bool_decide_eq_false]%orb_false_iff
                                    Hl%bool_decide_eq_false].
  intros E [?|[?|[?|Hinv]]]; try done. revert E.
  destruct (decide (var_typ (heap s lhs) = nilType)); [|by eauto].
  destruct (isUntyped (op_typ x)).
  - destruct (decide (op_typ x = Typ_UntypedNil)); mstep; [|by eauto].
    intros [= <- <- <- <-]. done.
  - mstep. by eauto.
Qed.

(** On success [initVar] returns the type of the operand afterwards. *)
Lemma initVar_success lhs x context s r x' s' tr :
  initVar lhs x context s = Some ((r, x'), s', tr) →
  ¬ (op_mode x = invalid ∨ op_typ x = Typ_Invalid ∨ var_typ (heap s lhs) = Typ_Invalid) →
  ¬ (var_typ (heap s lhs) = nilType ∧ isUntyped (op_typ x) = true
     ∧ op_typ x = Typ_UntypedNil) →
  op_mode x' ≠ invalid →
  r = op_typ x'.
Proof.
  assert (∀ s0, initVar_assign lhs x context s0 = Some ((r, x'), s', tr) →
                op_mode x' ≠ invalid → r = op_typ x') as Hassign.
  { intros s0 E Hinv.
    destruct (assignment_total x (var_typ (heap s0 lhs)) context s0) as (x2 & s2 & tr2 & E2).
    rewrite (initVar_assign_eq _ _ _ _ _ _ _ E2) in E.
    destruct (decide (op_mode x2 = invalid)); by simplify_eq. }
  unfold initVar. mstep. intros E Hguard Hnil Hvalid. revert E.
  destruct (bool_decide (op_mode x = invalid) || bool_decide (op_typ x = Typ_Invalid)
            || bool_decide (var_typ (heap s lhs) = Typ_Invalid)) eqn:Hg.
  { destruct Hguard.
    apply orb_true_iff in Hg as [[?%bool_decide_eq_true|?%bool_decide_eq_true]%orb_true_iff
                                 |?%bool_decide_eq_true]; auto. }
  destruct (decide (var_typ (heap s lhs) = nilType)); [|by eauto].
  destruct (isUntyped (op_typ x)).
  - destruct (decide (op_typ x = Typ_UntypedNil)); mstep; [|by eauto].
    by destruct Hnil.
  - mstep. by eauto.
Qed.

(** ** [lhsVar] *)

(** C8. When the left-hand side is a (possibly parenthesized) identifier
    other than the blank identifier that denotes a variable [v] of the
    package being checked, [lhsVar] leaves [v.used] at the value it had
    before, and keeps every other change the evaluation of the identifier
    made: the other variables, the other fields of [v] and the rest of the
    checker are those after the evaluation. (The evaluator records the
    expression it evaluated in the operand.) *)
Theorem lhsVar_restores_used (lhs : Expr) (node : nat) (name : string) (v : VarRef)
    (s : Checker) (x : operand) (s1 : Checker) :
  unparen lhs = Name node name →
  name ≠ "_"%string →
  lookup name s = Some (ObjVar v) →
  var_pkg (heap s v) = pkg s →
  expr lhs s = (x, s1) →
  op_expr x = Some lhs →
  ∃ T s' tr,
    lhsVar lhs s = Some (T, s', tr)
    ∧ var_used (heap s' v) = var_used (heap s v)
    ∧ (∀ w, w ≠ v → heap s' w = heap s1 w)
    ∧ heap s' v = var_set_used (var_used (heap s v)) (heap s1 v)
    ∧ pkg s' = pkg s1 ∧ scope s' = scope s1 ∧ env s' = env s1.
Proof.
  intros Hname Hblank Hlook Hpkg Hexpr Hrec.
  assert (∃ T tr, lhsVar lhs s = Some (T, usedAt v (var_used (heap s v)) s1, tr))
    as (T & tr & E).
  { unfold lhsVar. rewrite Hname. simpl.
    destruct (decide (Some name = Some "_"%string)) as [[=]|_]; [done|].
    mstep. rewrite Hlook. simpl. mstep.
    destruct (decide (var_pkg (heap s v) = pkg s)); [|done]. mstep.
    rewrite Hexpr. simpl.
    destruct (bool_decide (op_mode x = invalid) || bool_decide (op_typ x = Typ_Invalid));
      [by eauto|].
    rewrite Hrec.
    destruct (op_mode x); try (by eauto);
      destruct lhs; try discriminate Hname; mstep; by eauto. }
  exists T, (usedAt v (var_used (heap s v)) s1), tr. split; [done|].
  rewrite heap_usedAt. destruct (decide (v = v)); [|done].
  split; [done|]. split; [|done].
  intros w Hw. rewrite heap_usedAt. by destruct (decide (v = w)) as [->|].
Qed.

(** ** Loops *)

(** The invariant rule of [forRange]: an invariant over the index, the loop
    variables, the checker and the events so far, kept by every iteration
    that returns, holds at the end, and the loop returns. *)
Lemma forRange_rule_from {A St} (f : nat → A → St → M St)
    (I : nat → St → Checker → list Event → Prop) (l1 l2 : list A) :
  (∀ i a st s tr, (l1 ++ l2) !! i = Some a → length l1 ≤ i → I i st s tr →
     ∃ st' s' tr', f i a st s = Some (st', s', tr') ∧ I (S i) st' s' (tr ++ tr')) →
  ∀ st s tr, I (length l1) st s tr →
  ∃ st' s' tr', forRange f (length l1) l2 st s = Some (st', s', tr')
                ∧ I (length (l1 ++ l2)) st' s' (tr ++ tr').
Proof.
  revert l1. induction l2 as [|a l2 IH]; intros l1 Hstep st s tr HI.
  - simpl. exists st, s, []. by rewrite !app_nil_r.
  - destruct (Hstep (length l1) a st s tr) as (st1 & s1 & tr1 & E1 & HI1);
      [by apply list_lookup_middle|done|done|].
    destruct (IH (l1 ++ [a])) with (st := st1) (s := s1) (tr := tr ++ tr1)
      as (st2 & s2 & tr2 & E2 & HI2).
    + intros i b st' s' tr' Hb Hi. rewrite <- app_assoc in Hb. simpl in Hb.
      apply Hstep; [done|]. rewrite length_app in Hi. simpl in Hi. lia.
    + rewrite length_app. simpl. by replace (length l1 + 1) with (S (length l1)) by lia.
    + rewrite length_app in E2. simpl in E2.
      replace (length l1 + 1) with (S (length l1)) in E2 by lia.
      simpl. rewrite (bind_run _ _ _ _ _ _ E1), E2. simpl.
      do 3 eexists. split; [done|].
      rewrite <- app_assoc in HI2. simpl in HI2. by rewrite app_assoc.
Qed.

Lemma forRange_rule {A St} (f : nat → A → St → M St)
    (I : nat → St → Checker → list Event → Prop) (l : list A) :
  (∀ i a st s tr, l !! i = Some a → I i st s tr →
     ∃ st' s' tr', f i a st s = Some (st', s', tr') ∧ I (S i) st' s' (tr ++ tr')) →
  ∀ st s, I 0 st s [] →
  ∃ st' s' tr', forRange f 0 l st s = Some (st', s', tr') ∧ I (length l) st' s' tr'.
Proof.
  intros Hstep st s HI.
  destruct (forRange_rule_from f I [] l) with (st := st) (s := s) (tr := @nil Event)
    as (st' & s' & tr' & E & HI'); [|done|by eauto].
  intros. by apply Hstep.
Qed.

Lemma forEach_rule {A} (f : A → M unit) (I : nat → Checker → list Event → Prop)
    (l : list A) :
  (∀ i a s tr, l !! i = Some a → I i s tr →
     ∃ s' tr', f a s = Some (tt, s', tr') ∧ I (S i) s' (tr ++ tr')) →
  ∀ s, I 0 s [] →
  ∃ s' tr', forEach f l s = Some (tt, s', tr') ∧ I (length l) s' tr'.
Proof.
  intros Hstep s HI.
  destruct (forRange_rule (λ _ a _, f a) (λ i _ s tr, I i s tr) l) with (st := tt) (s := s)
    as ([] & s' & tr' & E & HI'); [|done|by eauto].
  intros i a [] s0 tr Ha HI0. destruct (Hstep i a s0 tr Ha HI0) as (s1 & tr1 & E1 & HI1).
  by exists tt, s1, tr1.
Qed.

(** ** The arity check of [initVars] *)

Lemma invalidated_idem w :
  (let w1 := var_set_used true (invalidated w) in
   if decide (var_typ w1 = nilType) then var_set_typ Typ_Invalid w1 else w1) = invalidated w.
Proof.
  destruct w as [p k n t u]. unfold invalidated. simpl.
  destruct (decide (t = nilType)); simpl.
  - by destruct (decide (Typ_Invalid = nilType)).
  - by destruct (decide (t = nilType)).
Qed.

Lemma invalidated_step w :
  (let w1 := var_set_used true w in
   if decide (var_typ w1 = nilType) then var_set_typ Typ_Invalid w1 else w1) = invalidated w.
Proof.
  destruct w as [p k n t u]. unfold invalidated. simpl.
  by destruct (decide (t = nilType)).
Qed.

(** Lines 337-342 mark every variable of the list used, force the unset
    types to the invalid type, and touch nothing else. *)
Lemma invalidateVars_eq lhs s :
  ∃ s', invalidateVars lhs s = Some (tt, s', [])
        ∧ (∀ v, heap s' v = if decide (v ∈ lhs) then invalidated (heap s v) else heap s v)
        ∧ pkg s' = pkg s ∧ scope s' = scope s ∧ env s' = env s.
Proof.
  unfold invalidateVars.
  destruct (forEach_rule
    (λ obj, setVarUsed obj true ;;;
            let* o := getVar obj in
            if decide (var_typ o = nilType) then setVarTyp obj Typ_Invalid else ret tt)
    (λ i s' tr, tr = []
       ∧ (∀ v, heap s' v = if decide (v ∈ take i lhs) then invalidated (heap s v)
                           else heap s v)
       ∧ pkg s' = pkg s ∧ scope s' = scope s ∧ env s' = env s) lhs) with (s := s)
    as (s' & tr' & E & -> & Hheap & Hrest).
  - intros i obj s0 tr Hobj (-> & Hheap & Hp & Hs & He). mstep.
    rewrite fn_lookup_insert. simpl.
    assert (∀ v, (if decide (obj = v) then invalidated (heap s obj) else heap s0 v)
                 = if decide (v ∈ take (S i) lhs) then invalidated (heap s v) else heap s v)
      as Hnew.
    { intros v. rewrite (take_S_r _ _ _ Hobj). destruct (decide (obj = v)) as [<-|Hne].
      - rewrite decide_True; [done|].
        apply elem_of_app. right. by apply list_elem_of_singleton.
      - rewrite Hheap. destruct (decide (v ∈ take i lhs)) as [Hin|Hin].
        + rewrite decide_True; [done|]. apply elem_of_app. by left.
        + rewrite decide_False; [done|].
          intros [?|?%list_elem_of_singleton]%elem_of_app; done. }
    assert ((let w1 := var_set_used true (heap s0 obj) in
             if decide (var_typ w1 = nilType) then var_set_typ Typ_Invalid w1 else w1)
            = invalidated (heap s obj)) as Hobj'.
    { rewrite Hheap. destruct (decide (obj ∈ take i lhs));
        [apply invalidated_idem|apply invalidated_step]. }
    cbv zeta in Hobj'. simpl in Hobj'.
    destruct (decide (var_typ (heap s0 obj) = nilType)); mstep;
      do 2 eexists; (split; [done|]); (split; [done|]); (split; [|done]);
      intros v; rewrite <- Hnew, <- Hobj', ?heap_typAt, !heap_usedAt;
      destruct (decide (obj = v)) as [<-|]; try done;
      by destruct (decide (obj = obj)).
  - split; [done|]. split; [|done]. intros v. rewrite take_0.
    rewrite decide_False; [done|]. apply not_elem_of_nil.
  - exists s'. split; [done|]. split; [|done].
    intros v. rewrite Hheap, firstn_all. done.
Qed.

(** Without the variadic form [typesSummary] has no type assertion that can
    fail. *)
Lemma typesSummary_total (l : list GoType) : ∃ str, typesSummary l false = Some str.
Proof.
  unfold typesSummary.
  destruct (mapM_is_Some_2 (λ '(i, t), typeSummary (length l) false i t) (imap pair l))
    as [res ->]; [|by eauto].
  apply Forall_forall. intros [i t] _. unfold compose, typeSummary.
  destruct (bool_decide (t = nilType) || bool_decide (t = Typ_Invalid)); simpl; [by eauto|].
  destruct (isUntyped t); [destruct (isNumeric t)|]; simpl; by eauto.
Qed.

(** Lines 349-364: one diagnostic, at the first extra value ("too many"), at
    the last value ("not enough") or at the statement when there is no
    value. *)
Lemma returnError_eq lhs rhs st s :
  ∃ at_ q have want,
    returnError lhs rhs st s = Some (tt, s, [EvReport (returnDiag at_ q have want)])
    ∧ (length lhs < length rhs →
       q = "too many"%string ∧ ∃ x, rhs !! length lhs = Some x ∧ at_ = atExpr (op_expr x))
    ∧ (¬ length lhs < length rhs →
       q = "not enough"%string
       ∧ (0 < length rhs → ∃ x, last rhs = Some x ∧ at_ = atExpr (op_expr x))
       ∧ (rhs = [] → at_ = atStmt st)).
Proof.
  destruct (typesSummary_total (operandTypes rhs)) as [have Hhave].
  destruct (typesSummary_total (map (λ v, var_typ (heap s v)) lhs)) as [want Hwant].
  unfold returnError, varTypes.
  destruct (decide (length lhs < length rhs)) as [Hlt|Hlt].
  - destruct (lookup_lt_is_Some_2 rhs (length lhs) Hlt) as [x Hx].
    rewrite Hx. mstep. rewrite Hhave. mstep. rewrite Hwant. mstep.
    exists (atExpr (op_expr x)), "too many"%string, have, want.
    split; [done|]. split; [by eauto|]. done.
  - destruct (decide (0 < length rhs)) as [Hpos|Hpos].
    + assert (is_Some (rhs !! (length rhs - 1))) as [x Hx]
        by (apply lookup_lt_is_Some_2; lia).
      rewrite Hx. mstep. rewrite Hhave. mstep. rewrite Hwant. mstep.
      exists (atExpr (op_expr x)), "not enough"%string, have, want.
      split; [done|]. split; [done|]. intros _. split; [done|]. split.
      * intros _. exists x. split; [|done]. rewrite last_lookup.
        by replace (pred (length rhs)) with (length rhs - 1) by lia.
      * intros ->. simpl in Hpos. lia.
    + mstep. rewrite Hhave. mstep. rewrite Hwant. mstep.
      exists (atStmt st), "not enough"%string, have, want.
      split; [done|]. split; [done|]. intros _. split; [done|]. split; [done|]. done.
Qed.

(** [assignError] reports one diagnostic when there is a right-hand side. *)
Lemma assignError_eq rhs nvars nvals s :
  rhs ≠ [] →
  ∃ d, assignError rhs nvars nvals s = Some (tt, s, [EvReport d])
       ∧ d_code d = WrongAssignCount ∧ d_soft d = false.
Proof.
  intros Hne. destruct rhs as [|rhs0 rest]; [done|].
  unfold assignError. simpl. mstep.
  destruct (decide (S (length rest) = 1)); [destruct (unparen rhs0)|]; mstep; by eauto.
Qed.

(** The arity check of lines 335-368. *)
Lemma initVars_mismatch (lhs : list VarRef) (orig_rhs : list Expr)
    (returnStmt : option Stmt) (s : Checker) (rhs : list operand) (commaOk : bool)
    (s1 : Checker) :
  exprList orig_rhs (bool_decide (length lhs = 2) && bool_decide (returnStmt = None)) s
    = (rhs, commaOk, s1) →
  length lhs ≠ length rhs →
  (returnStmt = None → orig_rhs ≠ []) →
  ∃ s' tr,
    initVars lhs orig_rhs returnStmt s = Some (tt, s', tr)
    ∧ (∀ v, v ∈ lhs →
         var_used (heap s' v) = true
         ∧ var_typ (heap s' v) =
             if decide (var_typ (heap s1 v) = nilType) then Typ_Invalid
             else var_typ (heap s1 v))
    ∧ (∀ v, v ∉ lhs → heap s' v = heap s1 v)
    ∧ (anyInvalid rhs = true → tr = [])
    ∧ (anyInvalid rhs = false →
       ∃ d, tr = [EvReport d] ∧ d_soft d = false
            ∧ d_code d = match returnStmt with
                         | Some _ => WrongResultCount
                         | None => WrongAssignCount
                         end).
Proof.
  intros Hrhs Hlen Hne.
  destruct (invalidateVars_eq lhs s1) as (s2 & Hinv & Hheap & _).
  assert (∀ v, v ∈ lhs →
            var_used (heap s2 v) = true
            ∧ var_typ (heap s2 v) =
                if decide (var_typ (heap s1 v) = nilType) then Typ_Invalid
                else var_typ (heap s1 v)) as Hin.
  { intros v Hv. rewrite Hheap. by destruct (decide (v ∈ lhs)). }
  assert (∀ v, v ∉ lhs → heap s2 v = heap s1 v) as Hout.
  { intros v Hv. rewrite Hheap. by destruct (decide (v ∈ lhs)). }
  unfold initVars. mstep. rewrite Hrhs. simpl.
  destruct (decide (length lhs ≠ length rhs)); [|done].
  rewrite (bind_run _ _ _ _ _ _ Hinv). simpl.
  destruct (anyInvalid rhs) eqn:Hany.
  - exists s2, []. split; [done|]. split; [exact Hin|]. split; [exact Hout|]. done.
  - destruct returnStmt as [st|].
    + destruct (returnError_eq lhs rhs st s2) as (at_ & q & have & want & -> & _).
      exists s2. eexists. split; [done|]. split; [exact Hin|]. split; [exact Hout|].
      split; [done|]. intros _. by eexists.
    + destruct (assignError_eq orig_rhs (Z.of_nat (length lhs)) (Z.of_nat (length rhs)) s2)
        as (d & -> & Hcode & Hsoft); [by apply Hne|].
      exists s2. eexists. split; [done|]. split; [exact Hin|]. split; [exact Hout|].
      split; [done|]. intros _. by exists d.
Qed.

(** C6. When the number of targets of [initVars] differs from the number of
    operands: every target is marked used and a target without a type gets
    the invalid type, other variables are untouched; exactly one diagnostic
    is reported, an arity diagnostic ([WrongResultCount] for a return
    statement, [WrongAssignCount] otherwise), and none at all if an operand
    is invalid already. (An assignment or declaration has at least one
    expression on its right-hand side; only a return statement can have
    none.) *)
Theorem initVars_arity_mismatch (lhs : list VarRef) (orig_rhs : list Expr)
    (returnStmt : option Stmt) (s : Checker) (rhs : list operand) (commaOk : bool)
    (s1 : Checker) :
  exprList orig_rhs (bool_decide (length lhs = 2) && bool_decide (returnStmt = None)) s
    = (rhs, commaOk, s1) →
  length lhs ≠ length rhs →
  (returnStmt = None → orig_rhs ≠ []) →
  ∃ s' tr,
    initVars lhs orig_rhs returnStmt s = Some (tt, s', tr)
    ∧ (∀ v, v ∈ lhs →
         var_used (heap s' v) = true
         ∧ var_typ (heap s' v) =
             if decide (var_typ (heap s1 v) = nilType) then Typ_Invalid
             else var_typ (heap s1 v))
    ∧ (∀ v, v ∉ lhs → heap s' v = heap s1 v)
    ∧ (anyInvalid rhs = true → tr = [])
    ∧ (anyInvalid rhs = false →
       ∃ d, tr = [EvReport d] ∧ d_soft d = false
            ∧ d_code d = match returnStmt with
                         | Some _ => WrongResultCount
                         | None => WrongAssignCount
                         end).
Proof. apply initVars_mismatch. Qed.

(** C7. The arity diagnostic of a return statement is reported at the first
    extra value, with "too many return values", when there are more values
    than results, and at the last value, with "not enough return values",
    when there are fewer values than results and there is a value (at the
    statement itself when there is none). *)
Theorem initVars_return_position (lhs : list VarRef) (orig_rhs : list Expr) (st : Stmt)
    (s : Checker) (rhs : list operand) (commaOk : bool) (s1 : Checker) :
  exprList orig_rhs false s = (rhs, commaOk, s1) →
  length lhs ≠ length rhs →
  anyInvalid rhs = false →
  ∃ s' at_ q have want,
    initVars lhs orig_rhs (Some st) s = Some (tt, s', [EvReport (returnDiag at_ q have want)])
    ∧ (length lhs < length rhs →
       q = "too many"%string ∧ ∃ x, rhs !! length lhs = Some x ∧ at_ = atExpr (op_expr x))
    ∧ (length rhs < length lhs →
       q = "not enough"%string
       ∧ (0 < length rhs → ∃ x, last rhs = Some x ∧ at_ = atExpr (op_expr x))
       ∧ (rhs = [] → at_ = atStmt st)).
Proof.
  intros Hrhs Hlen Hany.
  destruct (invalidateVars_eq lhs s1) as (s2 & Hinv & _).
  destruct (returnError_eq lhs rhs st s2) as (at_ & q & have & want & E & Hmany & Hfew).
  exists s2, at_, q, have, want. split.
  - unfold initVars. mstep. rewrite andb_false_r, Hrhs. simpl.
    destruct (decide (length lhs ≠ length rhs)); [|done].
    rewrite (bind_run _ _ _ _ _ _ Hinv), Hany. simpl. by rewrite E.
  - split; [done|]. intros Hlt. apply Hfew. lia.
Qed.

(** ** [initVars] returns *)

Lemma forEach_setVarUsed_total (l : list VarRef) (b : bool) s :
  ∃ s', forEach (λ v, setVarUsed v b) l s = Some (tt, s', []).
Proof.
  destruct (forEach_rule (λ v, setVarUsed v b) (λ _ _ tr, tr = []) l) with (s := s)
    as (s' & tr & E & ->); [|done|by eauto].
  intros i v s0 tr _ ->. unfold setVarUsed, modify. by eauto.
Qed.

(** [initVars] returns, with hard diagnostics only, provided there is a
    right-hand side unless the statement is a return statement, and provided
    [exprList] delivers the comma-ok form only where it was asked for. *)
Lemma initVars_total lhs orig_rhs returnStmt s :
  (returnStmt = None → orig_rhs ≠ []) →
  (∀ es b s0, (exprList es b s0).1.2 = true → b = true) →
  ∃ s' tr, initVars lhs orig_rhs returnStmt s = Some (tt, s', tr)
           ∧ Forall (λ e, hard e = true) tr.
Proof.
  intros Hne Hok.
  destruct (exprList orig_rhs
              (bool_decide (length lhs = 2) && bool_decide (returnStmt = None)) s)
    as [[rhs commaOk] s1] eqn:Hrhs.
  destruct (decide (length lhs = length rhs)) as [Hlen|Hlen].
  2: { destruct (initVars_mismatch _ _ _ _ _ _ _ Hrhs Hlen Hne)
         as (s' & tr & E & _ & _ & Hnone & Hone).
       exists s', tr. split; [done|].
       destruct (anyInvalid rhs); [by rewrite Hnone|].
       destruct Hone as (d & -> & Hsoft & _); [done|].
       repeat constructor. simpl. by rewrite Hsoft. }
  unfold initVars. mstep. rewrite Hrhs. simpl.
  destruct (decide (length lhs ≠ length rhs)); [done|].
  destruct commaOk.
  - pose proof (Hok orig_rhs (bool_decide (length lhs = 2)
                                 && bool_decide (returnStmt = None)) s) as Hflag.
    rewrite Hrhs in Hflag.
    apply andb_true_iff in Hflag as [H2%bool_decide_eq_true Hret%bool_decide_eq_true];
      [|done].
    destruct lhs as [|l0 [|l1 [|]]]; try done.
    destruct rhs as [|r0 [|r1 [|]]]; try done.
    destruct orig_rhs as [|e0 ?]; [by destruct (Hne Hret)|]. simpl. mstep.
    destruct (initVar_total l0 r0
                (if decide (returnStmt ≠ None) then "return statement" else "assignment")%string
                s1) as (a0 & x0 & s2 & tr0 & E0 & Hh0).
    rewrite (bind_run _ _ _ _ _ _ E0). mstep.
    destruct (initVar_total l1 r1
                (if decide (returnStmt ≠ None) then "return statement" else "assignment")%string
                s2) as (a1 & x1 & s3 & tr1 & E1 & Hh1).
    rewrite (bind_run _ _ _ _ _ _ E1). mstep.
    do 2 eexists. split; [done|]. rewrite app_nil_r. by apply Forall_app.
  - set (context := (if decide (returnStmt ≠ None) then "return statement"
                     else "assignment")%string).
    destruct (forRange_rule
      (λ i l ok, let* x := fromOption (rhs !! i) in
                 let* (T, _) := initVar l x context in
                 ret (if decide (T = nilType) then false else ok))
      (λ _ _ _ tr, Forall (λ e, hard e = true) tr) lhs) with (st := true) (s := s1)
      as (ok & s2 & tr & E & Hh); [|done|].
    + intros i l ok s0 tr Hl Hh.
      assert (is_Some (rhs !! i)) as [x Hx].
      { apply lookup_lt_is_Some_2. rewrite <- Hlen. by eapply lookup_lt_Some. }
      rewrite Hx. mstep.
      destruct (initVar_total l x context s0) as (T & x' & s' & tr' & E' & Hh').
      rewrite (bind_run _ _ _ _ _ _ E'). mstep.
      do 3 eexists. split; [done|]. rewrite app_nil_r. by apply Forall_app.
    + rewrite (bind_run _ _ _ _ _ _ E). destruct ok; simpl.
      * do 2 eexists. split; [done|]. by rewrite app_nil_r.
      * destruct (forEach_setVarUsed_total lhs true s2) as (s3 & Hs3).
        unfold setVarUsed in Hs3. rewrite Hs3. simpl.
        do 2 eexists. split; [done|]. by rewrite app_nil_r.
Qed.

(** ** [shortVarDecl] *)




(** One iteration of the first loop of [shortVarDecl]: it returns, reports
    hard diagnostics only, sets [hasErr] exactly when it reports one, keeps
    the length of [lhsVars], never removes a new variable, and adds one for
    a name that is not blank, not seen before and not in the scope. *)
Lemma collectLhs_step_spec sc i e st s :
  ∃ st' s' tr,
    collectLhs_step sc i e st s = Some (st', s', tr)
    ∧ Forall (λ e, hard e = true) tr
    ∧ hasErr st' = hasErr st || has_report tr
    ∧ length (lhsVars st') = length (lhsVars st)
    ∧ (newVars st ≠ [] → newVars st' ≠ [])
    ∧ (∀ name, asName e = Some name → name ≠ "_"%string →
         default false (seen st !! name) = false →
         Scope_Lookup sc name s = None → newVars st' ≠ []).
Proof.
  unfold collectLhs_step. destruct (asName e) as [name|] eqn:Hname.
  2: { mstep. do 3 eexists. split; [done|]. simpl. rewrite orb_true_r.
       split; [by repeat constructor|]. by repeat split. }
  destruct (bool_decide (name ≠ "_"%string) && default false (seen st !! name)) eqn:Hrep.
  { mstep. do 3 eexists. split; [done|]. simpl. rewrite orb_true_r.
    split; [by repeat constructor|]. split; [done|]. split; [done|]. split; [done|].
    intros ? [= <-] Hb Hs _. rewrite bool_decide_eq_true_2, Hs in Hrep; done. }
  mstep. destruct (Scope_Lookup sc name s) as [alt|] eqn:Hlook.
  - mstep. destruct (asVar alt); mstep.
    + do 3 eexists. split; [done|]. simpl. rewrite orb_false_r, length_insert.
      split; [done|]. split; [done|]. split; [done|]. split; [done|].
      intros ? [= <-] _ _ ?. congruence.
    + do 3 eexists. split; [done|]. simpl. rewrite orb_true_r.
      split; [by repeat constructor|]. split; [done|]. split; [done|]. split; [done|].
      intros ? [= <-] _ _ ?. congruence.
  - mstep. do 3 eexists. split; [done|]. simpl. rewrite orb_false_r, length_insert.
    split; [done|]. split; [done|]. split; [done|]. split.
    + destruct (decide (name ≠ "_"%string)); [|done]. intros _. by destruct (newVars st).
    + intros ? [= <-] Hb _ _. destruct (decide (name ≠ "_"%string)); [|done].
      by destruct (newVars st).
Qed.







End Properties.

(** * The properties on concrete statements *)

(** C2, as stated, fails: [_ = 1 << 100] has an operand in an assignable
    mode that is not nil, yet the assignment to the blank identifier fails,
    because the constant overflows its default type [int]. *)
Lemma assignment_blank_overflow :
  singleValue Mini.big Mini.start = (Mini.big, Mini.start)
  ∧ assignable_mode (op_mode Mini.big) = true
  ∧ isNil Mini.big = false
  ∧ assignment Mini.big nilType "assignment to _ identifier" Mini.start =
      Some (set_mode invalid Mini.big, Mini.start,
            [EvImplicit Mini.big Mini.tInt;
             EvReport (convDiag NumericOverflow Mini.big Mini.tInt
                         "assignment to _ identifier")])
  ∧ op_mode (set_mode invalid Mini.big) = invalid.
Proof.
  split; [reflexivity|]. split; [reflexivity|]. split; [reflexivity|].
  split; [vm_compute; reflexivity|reflexivity].
Qed.

(** C3. For an operand in a mode outside the assignable ones, here a type
    expression assigned to an [int] variable, [assignment] reports "cannot
    assign ..." and returns, and the operand keeps its mode: it is not
    invalid afterwards. *)
Theorem assignment_unexpected_mode_stays_valid :
  assignment Mini.odd_operand Mini.tInt "assignment" Mini.start =
    Some (Mini.odd_operand, Mini.start,
          [EvReport (cannotAssignDiag Mini.odd_operand Mini.tInt "assignment")])
  ∧ assignable_mode (op_mode Mini.odd_operand) = false
  ∧ op_mode Mini.odd_operand ≠ invalid.
Proof. split; [vm_compute; reflexivity|]. split; [reflexivity|discriminate]. Qed.

(** C5. [var v = nil]: [initVar] on a variable without a type and the
    untyped nil reports "use of untyped nil", forces the type of the variable
    to the invalid type and returns nil, and the variable is still unused
    afterwards. *)
Theorem initVar_untyped_nil_leaves_unused :
  var_typ (heap Mini.with_vars 1) = nilType
  ∧ var_used (heap Mini.with_vars 1) = false
  ∧ initVar 1 Mini.nil_operand "variable declaration" Mini.with_vars =
      Some ((nilType, Mini.nil_operand), typAt 1 Typ_Invalid Mini.with_vars,
            [EvReport (untypedNilDiag Mini.nil_operand "variable declaration")])
  ∧ var_typ (heap (typAt 1 Typ_Invalid Mini.with_vars) 1) = Typ_Invalid
  ∧ var_used (heap (typAt 1 Typ_Invalid Mini.with_vars) 1) = false.
Proof.
  split; [reflexivity|]. split; [reflexivity|].
  split; [vm_compute; reflexivity|]. split; reflexivity.
Qed.

(** ** The theorems at work *)

(** [var i any = 5]: the constant is converted to its default type [int]. *)
Lemma assignment_conversion_target_witness :
  ∃ x' tr,
    assignment Mini.five Mini.tAny "variable declaration" Mini.start =
      Some (x', Mini.start, EvImplicit Mini.five Mini.tInt :: tr)
    ∧ op_typ x' = Mini.tInt
    ∧ op_val x' = Some 5%Z.
Proof.
  destruct (assignment_conversion_target Mini.five Mini.tAny "variable declaration"
              Mini.start Mini.five Mini.start Mini.tInt Mini.tInt (Some 5%Z) Code0)
    as [_ Hok];
    [reflexivity|reflexivity|reflexivity|reflexivity|reflexivity|reflexivity|].
  destruct (Hok eq_refl) as (x' & tr & E & _ & Ht & Hv & _).
  exists x', tr. split; [exact E|]. split; [exact Ht|exact Hv].
Defined.

(** [_ = 5] *)
Lemma assignment_blank_witness :
  ∃ x' s' tr,
    assignment Mini.five nilType "assignment to _ identifier" Mini.start = Some (x', s', tr)
    ∧ Forall (λ e, is_assignable_query e = false) tr
    ∧ op_mode x' = constant_.
Proof.
  destruct (assignment_blank Mini.five "assignment to _ identifier" Mini.start
              Mini.five Mini.start) as (x' & s' & tr & E & Hq & _ & Hok & _);
    [reflexivity|reflexivity|].
  exists x', s', tr. split; [exact E|]. split; [exact Hq|].
  apply Hok. right. split; reflexivity.
Defined.

(** [var g func[T any]() = f] for a generic [f] *)
Lemma assignment_generic_function_witness :
  assignment Mini.generic_operand Mini.tGenericFunc "variable declaration" Mini.start =
    Some (Mini.generic_operand, Mini.start,
          [EvReport (genericDiag Mini.generic_operand "variable declaration");
           EvAssignable Mini.generic_operand Mini.tGenericFunc]).
Proof.
  destruct (assignment_generic_function Mini.generic_operand Mini.tGenericFunc
              "variable declaration" Mini.start Mini.generic_operand Mini.start 0)
    as [_ H]; [reflexivity|reflexivity|reflexivity|reflexivity|].
  apply (H ltac:(discriminate) true Code0 ""%string). reflexivity.
Defined.

(** [x, v = 5] with [x] and [v] declared before *)
Lemma initVars_arity_mismatch_witness :
  ∃ s' d,
    initVars [0; 1] [OtherExpr 5] None Mini.with_vars = Some (tt, s', [EvReport d])
    ∧ d_code d = WrongAssignCount
    ∧ var_used (heap s' 0) = true ∧ var_used (heap s' 1) = true
    ∧ var_typ (heap s' 1) = Typ_Invalid.
Proof.
  destruct (initVars_arity_mismatch [0; 1] [OtherExpr 5] None Mini.with_vars
              [Mini.five] false Mini.with_vars)
    as (s' & tr & E & Hin & _ & _ & Hone); [reflexivity|simpl; lia|discriminate|].
  destruct Hone as (d & -> & _ & Hcode); [reflexivity|].
  exists s', d. split; [exact E|]. split; [exact Hcode|].
  destruct (Hin 0) as [H0 _]; [apply list_elem_of_here|].
  destruct (Hin 1) as [H1 H1']; [apply list_elem_of_further, list_elem_of_here|].
  split; [exact H0|]. split; [exact H1|]. exact H1'.
Defined.

(** [return 5, 6, 7] in a function with two results *)
Lemma initVars_return_position_witness :
  ∃ s' at_ have want,
    initVars [0; 1] [OtherExpr 5; OtherExpr 6; OtherExpr 7] (Some 9) Mini.with_vars =
      Some (tt, s', [EvReport (returnDiag at_ "too many" have want)])
    ∧ at_ = atExpr (Some (OtherExpr 7)).
Proof.
  destruct (initVars_return_position [0; 1] [OtherExpr 5; OtherExpr 6; OtherExpr 7] 9
              Mini.with_vars
              [Mini.lit 5; Mini.lit 6; Mini.lit 7]
              false Mini.with_vars)
    as (s' & at_ & q & have & want & E & Hmany & _);
    [reflexivity|simpl; lia|reflexivity|].
  destruct Hmany as (-> & x & Hx & ->); [simpl; lia|].
  exists s', (atExpr (op_expr x)), have, want. split; [exact E|].
  injection Hx as <-. reflexivity.
Defined.

(** [(x) = ...] with [x] declared before and not used yet *)
Lemma lhsVar_restores_used_witness :
  ∃ T s' tr,
    lhsVar (ParenExpr (Name 3 "x")) Mini.with_vars = Some (T, s', tr)
    ∧ var_used (heap s' 0) = false.
Proof.
  destruct (lhsVar_restores_used (ParenExpr (Name 3 "x")) 3 "x" 0 Mini.with_vars
              (Mini.int_var (ParenExpr (Name 3 "x")))
              (usedAt 0 true Mini.with_vars))
    as (T & s' & tr & E & Hused & _);
    [reflexivity|discriminate|reflexivity|reflexivity|reflexivity|reflexivity|].
  exists T, s', tr. split; [exact E|exact Hused].
Defined.


(** [const c = 5] *)
Lemma initConst_value_frame_witness :
  ∃ lhs' x' s' tr,
    initConst (mkConst nilType None) Mini.five Mini.start = Some ((lhs', x'), s', tr)
    ∧ (op_mode x' ≠ invalid → const_val lhs' = op_val x').
Proof.
  destruct (initConst_value_frame (mkConst nilType None) Mini.five Mini.start)
    as (lhs' & x' & s' & tr & E & _ & Hcopy & _); [reflexivity|].
  exists lhs', x', s', tr. split; [exact E|].
  intros Hvalid. apply Hcopy. intros [H|[H|[H|[H|H]]]]; try discriminate H.
  - apply H. reflexivity.
  - exact (Hvalid H).
Defined.

(** [x, z := 5, 6] with [x] in the scope already: [x] is reused, [z] is new
    and enters the scope, and nothing is reported. *)
Example shortVarDecl_reuse_and_new :
  ∃ s' tr,
    shortVarDecl 7 [Name 1 "x"; Name 2 "z"] [OtherExpr 5; OtherExpr 6] Mini.with_vars =
      Some (tt, s', tr)
    ∧ reports tr = []
    ∧ Mini.table (env s') = [("z"%string, 2); ("x"%string, 0)]
    ∧ var_typ (heap s' 2) = Mini.tInt.
Proof.
  do 2 eexists. split; [vm_compute; reflexivity|]. split; [reflexivity|].
  split; reflexivity.
Qed.

(** * Further properties *)

Section Further.
Context `{CO : Collaborators}.

(** ** [assignment]: what a call can do to its operand *)

Lemma reports_app tr1 tr2 : reports (tr1 ++ tr2) = reports tr1 ++ reports tr2.
Proof.
  induction tr1 as [|[d| |] tr1 IH]; simpl; [done| |done|done].
  unfold reports in *. simpl. by rewrite IH.
Qed.

Lemma reports_genericEvents_length x context :
  length (reports (genericEvents x context)) ≤ 1.
Proof.
  unfold genericEvents. destruct (underSignature (op_typ x)) as [[|n]|]; simpl; lia.
Qed.

(** The typed part of [assignment] leaves the checker alone, keeps the
    operand or invalidates it, and reports one diagnostic after the advisory
    exactly when it invalidates. *)
Lemma assignment_typed_shape x T context s :
  ∃ x' tr,
    assignment_typed x T context s = Some (x', s, genericEvents x context ++ tr)
    ∧ ((x' = x ∧ reports tr = []) ∨ (x' = set_mode invalid x ∧ ∃ d, reports tr = [d]))
    ∧ Forall (λ e, is_implicit_query e = false) tr.
Proof.
  destruct (decide (T = nilType)) as [->|HT].
  - rewrite assignment_typed_blank. exists x, []. rewrite app_nil_r.
    split; [done|]. split; [by left|done].
  - destruct (assignableTo x T s) as [[ok code] cause] eqn:E.
    rewrite (assignment_typed_target _ _ _ _ _ _ _ HT E).
    destruct ok.
    + exists x, [EvAssignable x T]. split; [done|]. split; [by left|]. by repeat constructor.
    + exists (set_mode invalid x),
        [EvAssignable x T; EvReport (notAssignableDiag x T context code cause)].
      split; [done|]. split; [right; split; [done|by eexists]|]. by repeat constructor.
Qed.

(** The diagnostics of the advisory of line 80. *)
Lemma reports_genericEvents x context :
  reports (genericEvents x context) = []
  ∨ reports (genericEvents x context) = [genericDiag x context].
Proof. unfold genericEvents. destruct (underSignature (op_typ x)) as [[|n]|]; auto. Qed.

(** No failure of [assignment] is worded as the advisory. *)
Lemma untypedNilDiag_not_generic x context y c : untypedNilDiag x context ≠ genericDiag y c.
Proof. done. Qed.

Lemma convDiag_not_generic code x target context y c :
  convDiag code x target context ≠ genericDiag y c.
Proof. unfold convDiag. by destruct code. Qed.

Lemma notAssignableDiag_not_generic x T context code cause y c :
  notAssignableDiag x T context code cause ≠ genericDiag y c.
Proof.
  unfold notAssignableDiag, genericDiag.
  destruct (decide (cause = ""%string)); intros H;
    apply (f_equal (λ d, match d_desc d with
                         | [(_, format, _)] => format
                         | _ => EmptyString
                         end)) in H;
    simpl in H; discriminate H.
Qed.

(** The typed part of [assignment]: the operand is kept and at most the
    advisory is reported, or the operand is invalidated and the failed
    assignability is reported last. *)
Lemma assignment_typed_outcome x T context s :
  ∃ x' tr,
    assignment_typed x T context s = Some (x', s, tr)
    ∧ ((x' = x ∧ reports tr = reports (genericEvents x context))
       ∨ (x' = set_mode invalid x
          ∧ ∃ code cause,
              reports tr = reports (genericEvents x context)
                           ++ [notAssignableDiag x T context code cause])).
Proof.
  destruct (decide (T = nilType)) as [->|HT].
  - rewrite assignment_typed_blank. do 2 eexists. split; [done|]. by left.
  - destruct (assignableTo x T s) as [[ok code] cause] eqn:E.
    rewrite (assignment_typed_target _ _ _ _ _ _ _ HT E). do 2 eexists. split; [done|].
    rewrite reports_app. destruct ok; simpl.
    + left. by rewrite app_nil_r.
    + right. split; [done|]. by exists code, cause.
Qed.

(** X1. For an operand in an assignable mode, [assignment] cannot fail
    silently and cannot report a failure and keep the operand: the operand is
    invalid afterwards exactly when a diagnostic other than the advisory for
    generic functions is reported. If it stays valid its mode is unchanged and
    the advisory is the only possible diagnostic; if it is invalidated the
    last diagnostic is the failure (the use of untyped nil, the failed
    conversion to the conversion target, or the failed assignability to the
    target type), which is never the advisory, and at most the advisory
    precedes it. The expression of the operand is never changed. *)
Theorem assignment_invalid_iff_reported (x : operand) (T : GoType) (context : string)
    (s : Checker) (x1 : operand) (s1 : Checker) :
  singleValue x s = (x1, s1) →
  assignable_mode (op_mode x1) = true →
  ∃ x' s' tr,
    assignment x T context s = Some (x', s', tr)
    ∧ op_expr x' = op_expr x1
    ∧ (op_mode x' = invalid ↔ ∃ d, d ∈ reports tr ∧ ∀ y c, d ≠ genericDiag y c)
    ∧ (op_mode x' ≠ invalid →
       op_mode x' = op_mode x1 ∧ reports tr = reports (genericEvents x' context))
    ∧ (op_mode x' = invalid →
       ∃ adv d,
         reports tr = adv ++ [d]
         ∧ (adv = [] ∨ ∃ y, adv = [genericDiag y context])
         ∧ (∀ y c, d ≠ genericDiag y c)
         ∧ (d = untypedNilDiag x1 context
            ∨ (∃ code, d = convDiag code x1 (convTarget x1 T) context)
            ∨ (∃ y code cause,
                 x' = set_mode invalid y ∧ d = notAssignableDiag y T context code cause))
         ∧ last (reports tr) = Some d
         ∧ length (reports tr) ≤ 2).
Proof.
  intros Hsv Hmode.
  assert (op_mode x1 ≠ invalid) as Hvalid by (intros E; by rewrite E in Hmode).
  assert (∀ (x' : operand) (tr : list Event),
            (op_mode x' ≠ invalid →
             op_mode x' = op_mode x1 ∧ reports tr = reports (genericEvents x' context)) →
            (op_mode x' = invalid →
             ∃ adv d,
               reports tr = adv ++ [d]
               ∧ (adv = [] ∨ ∃ y, adv = [genericDiag y context])
               ∧ (∀ y c, d ≠ genericDiag y c)
               ∧ (d = untypedNilDiag x1 context
                  ∨ (∃ code, d = convDiag code x1 (convTarget x1 T) context)
                  ∨ (∃ y code cause,
                       x' = set_mode invalid y
                       ∧ d = notAssignableDiag y T context code cause))
               ∧ last (reports tr) = Some d
               ∧ length (reports tr) ≤ 2) →
            op_mode x' = invalid ↔ ∃ d, d ∈ reports tr ∧ ∀ y c, d ≠ genericDiag y c)
    as Hiff.
  { intros x' tr Hv Hi. split.
    - intros Hinv. destruct (Hi Hinv) as (adv & d & Hr & _ & Hd & _).
      exists d. split; [|done]. rewrite Hr, elem_of_app, list_elem_of_singleton. by right.
    - intros (d & Hin & Hd). destruct (decide (op_mode x' = invalid)) as [|Hval]; [done|].
      destruct (Hv Hval) as [_ Hr]. rewrite Hr in Hin.
      destruct (reports_genericEvents x' context) as [E|E]; rewrite E in Hin.
      + by apply not_elem_of_nil in Hin.
      + apply list_elem_of_singleton in Hin. by destruct (Hd x' context). }
  assert (∀ x' s' tr,
            assignment x T context s = Some (x', s', tr) →
            op_expr x' = op_expr x1 →
            (op_mode x' ≠ invalid →
             op_mode x' = op_mode x1 ∧ reports tr = reports (genericEvents x' context)) →
            (op_mode x' = invalid →
             ∃ adv d,
               reports tr = adv ++ [d]
               ∧ (adv = [] ∨ ∃ y, adv = [genericDiag y context])
               ∧ (∀ y c, d ≠ genericDiag y c)
               ∧ (d = untypedNilDiag x1 context
                  ∨ (∃ code, d = convDiag code x1 (convTarget x1 T) context)
                  ∨ (∃ y code cause,
                       x' = set_mode invalid y
                       ∧ d = notAssignableDiag y T context code cause))
               ∧ last (reports tr) = Some d
               ∧ length (reports tr) ≤ 2) →
            ∃ x' s' tr,
              assignment x T context s = Some (x', s', tr)
              ∧ op_expr x' = op_expr x1
              ∧ (op_mode x' = invalid ↔ ∃ d, d ∈ reports tr ∧ ∀ y c, d ≠ genericDiag y c)
              ∧ (op_mode x' ≠ invalid →
                 op_mode x' = op_mode x1 ∧ reports tr = reports (genericEvents x' context))
              ∧ (op_mode x' = invalid →
                 ∃ adv d,
                   reports tr = adv ++ [d]
                   ∧ (adv = [] ∨ ∃ y, adv = [genericDiag y context])
                   ∧ (∀ y c, d ≠ genericDiag y c)
                   ∧ (d = untypedNilDiag x1 context
                      ∨ (∃ code, d = convDiag code x1 (convTarget x1 T) context)
                      ∨ (∃ y code cause,
                           x' = set_mode invalid y
                           ∧ d = notAssignableDiag y T context code cause))
                   ∧ last (reports tr) = Some d
                   ∧ length (reports tr) ≤ 2)) as Hpack.
  { intros x' s' tr E He Hv Hi. exists x', s', tr. split; [done|]. split; [done|].
    split; [by apply Hiff|]. by split. }
  assert (∀ xc sc pre_tr,
            op_mode xc = op_mode x1 → op_expr xc = op_expr x1 → reports pre_tr = [] →
            ∃ x' tr,
              assignment_typed xc T context sc = Some (x', sc, tr)
              ∧ op_expr x' = op_expr x1
              ∧ (op_mode x' ≠ invalid →
                 op_mode x' = op_mode x1
                 ∧ reports (pre_tr ++ tr) = reports (genericEvents x' context))
              ∧ (op_mode x' = invalid →
                 ∃ adv d,
                   reports (pre_tr ++ tr) = adv ++ [d]
                   ∧ (adv = [] ∨ ∃ y, adv = [genericDiag y context])
                   ∧ (∀ y c, d ≠ genericDiag y c)
                   ∧ (d = untypedNilDiag x1 context
                      ∨ (∃ code, d = convDiag code x1 (convTarget x1 T) context)
                      ∨ (∃ y code cause,
                           x' = set_mode invalid y
                           ∧ d = notAssignableDiag y T context code cause))
                   ∧ last (reports (pre_tr ++ tr)) = Some d
                   ∧ length (reports (pre_tr ++ tr)) ≤ 2)) as Htyped.
  { intros xc sc pre_tr Hm He Hpre.
    destruct (assignment_typed_outcome xc T context sc)
      as (x' & tr & E & [[-> Hr]|[-> (code & cause & Hr)]]).
    - exists xc, tr. split; [done|]. split; [done|]. rewrite reports_app, Hpre. simpl.
      split; [done|]. intros Hi. by rewrite Hm in Hi.
    - exists (set_mode invalid xc), tr. split; [done|]. split; [done|].
      rewrite reports_app, Hpre. simpl. split; [done|]. intros _.
      exists (reports (genericEvents xc context)),
        (notAssignableDiag xc T context code cause).
      split; [done|]. split.
      { destruct (reports_genericEvents xc context) as [->| ->]; [by left|right; by eexists]. }
      split; [apply notAssignableDiag_not_generic|].
      split; [right; right; by exists xc, code, cause|].
      rewrite Hr. split; [apply last_snoc|]. rewrite length_app.
      pose proof (reports_genericEvents_length xc context). simpl. lia. }
  pose proof (assignment_eq x T context s) as Eq. rewrite Hsv, Hmode in Eq.
  destruct (decide (op_mode x1 = invalid)); [done|]. simpl in Eq.
  destruct (isUntyped (op_typ x1)).
  2: { destruct (Htyped x1 s1 []) as (x' & tr & E & He & Hv & Hi); [done|done|done|].
       rewrite E in Eq. by eapply Hpack. }
  destruct (isNil x1 && bool_decide (T = nilType)).
  { eapply Hpack; [exact Eq|done|done|]. intros _.
    exists [], (untypedNilDiag x1 context). split; [done|]. split; [by left|].
    split; [apply untypedNilDiag_not_generic|]. split; [by left|]. split; [done|simpl; lia]. }
  cbv zeta in Eq.
  destruct (implicitTypeAndValue x1 (convTarget x1 T) s1) as [[newType val] code].
  destruct (decide (code ≠ Code0)).
  { eapply Hpack; [exact Eq|done|done|]. intros _.
    exists [], (convDiag code x1 (convTarget x1 T) context). split; [done|].
    split; [by left|]. split; [apply convDiag_not_generic|].
    split; [right; left; by exists code|]. split; [done|simpl; lia]. }
  destruct (Htyped (converted x1 newType val) (recorded x1 newType val s1)
              [EvImplicit x1 (convTarget x1 T)])
    as (x' & tr & E & He & Hv & Hi).
  { apply converted_mode. }
  { unfold converted. destruct val; simpl; by destruct (decide _). }
  { done. }
  rewrite E in Eq. simpl in Eq. by eapply Hpack.
Qed.

(** X2. [assignment] never converts a typed operand: whatever the target
    type, the operand comes back as single-value reduction left it, or with
    only its mode set to invalid; the checker is the one after the reduction
    (nothing is recorded), and no conversion is asked for. *)
Theorem assignment_typed_operand (x : operand) (T : GoType) (context : string)
    (s : Checker) (x1 : operand) (s1 : Checker) :
  singleValue x s = (x1, s1) →
  isUntyped (op_typ x1) = false →
  ∃ x' tr,
    assignment x T context s = Some (x', s1, tr)
    ∧ (x' = x1 ∨ x' = set_mode invalid x1)
    ∧ Forall (λ e, is_implicit_query e = false) tr.
Proof.
  intros Hsv Hunt. rewrite assignment_eq, Hsv, Hunt.
  destruct (decide (op_mode x1 = invalid)).
  { exists x1, []. split; [done|]. split; [by left|done]. }
  destruct (negb (assignable_mode (op_mode x1))).
  { eexists x1, _. split; [done|]. split; [by left|]. by repeat constructor. }
  destruct (assignment_typed_shape x1 T context s1) as (x' & tr & -> & Hx & Hq).
  exists x', (genericEvents x1 context ++ tr). split; [done|].
  split; [destruct Hx as [[-> _]|[-> _]]; auto|].
  apply Forall_app. split; [|done].
  unfold genericEvents. destruct (underSignature (op_typ x1)) as [[|k]|]; by repeat constructor.
Qed.

(** X3. The untyped nil is never defaulted: with a target type present, it
    is the conversion of nil to the target type itself that decides the call,
    also when the target is an interface that is not a type parameter. When
    that conversion fails, the failure is reported for the target type and
    the operand is invalidated; when it succeeds, the operand takes the type
    the conversion to the target type gave, and the check goes on with it. *)
Theorem assignment_nil_target (x : operand) (T : GoType) (context : string)
    (s : Checker) (x1 : operand) (s1 : Checker) (newType : GoType) (val : option Value)
    (code : Code) :
  singleValue x s = (x1, s1) →
  assignable_mode (op_mode x1) = true →
  isUntyped (op_typ x1) = true →
  isNil x1 = true →
  T ≠ nilType →
  implicitTypeAndValue x1 T s1 = (newType, val, code) →
  (code ≠ Code0 →
     assignment x T context s =
       Some (set_mode invalid x1, s1,
             [EvImplicit x1 T; EvReport (convDiag code x1 T context)]))
  ∧ (code = Code0 →
     ∃ x' tr,
       assignment x T context s =
         Some (x', recorded x1 newType val s1, EvImplicit x1 T :: tr)
       ∧ assignment_typed (converted x1 newType val) T context (recorded x1 newType val s1)
           = Some (x', recorded x1 newType val s1, tr)
       ∧ op_typ x' = newType
       ∧ Forall (λ e, is_implicit_query e = false) tr).
Proof.
  intros Hsv Hmode Hunt Hnil HT Himp.
  assert (convTarget x1 T = T) as Htarget by (unfold convTarget; by rewrite Hnil).
  destruct (assignment_converts x T context s x1 s1 newType val code)
    as [Hfail Hok]; [done|done|done| |by rewrite Htarget|].
  { by rewrite Hnil, bool_decide_eq_false_2. }
  rewrite Htarget in Hfail, Hok. split; [exact Hfail|]. intros Hc.
  destruct (Hok Hc) as (x' & tr & E & Et & Hx & Hq).
  exists x', tr. split; [done|]. split; [done|].
  split; [by destruct Hx as [-> | ->]; simpl; apply converted_typ|done].
Qed.

(** X4. When the conversion of an untyped operand fails, [assignment]
    reports one diagnostic, invalidates the operand and stops: nothing is
    recorded and assignability is not queried. The code of the diagnostic is
    the oracle's code only for a truncated float and for a numeric overflow;
    every other code is reported as [IncompatibleAssign]. *)
Theorem assignment_conversion_failure (x : operand) (T : GoType) (context : string)
    (s : Checker) (x1 : operand) (s1 : Checker) (newType : GoType) (val : option Value)
    (code : Code) :
  singleValue x s = (x1, s1) →
  assignable_mode (op_mode x1) = true →
  isUntyped (op_typ x1) = true →
  isNil x1 && bool_decide (T = nilType) = false →
  implicitTypeAndValue x1 (convTarget x1 T) s1 = (newType, val, code) →
  code ≠ Code0 →
  ∃ d,
    assignment x T context s =
      Some (set_mode invalid x1, s1, [EvImplicit x1 (convTarget x1 T); EvReport d])
    ∧ d_soft d = false
    ∧ (d_code d = TruncatedFloat ∨ d_code d = NumericOverflow ∨ d_code d = IncompatibleAssign)
    ∧ (code = TruncatedFloat ∨ code = NumericOverflow → d_code d = code)
    ∧ (code ≠ TruncatedFloat → code ≠ NumericOverflow → d_code d = IncompatibleAssign).
Proof.
  intros Hsv Hmode Hunt Hnil Himp Hcode.
  exists (convDiag code x1 (convTarget x1 T) context). split.
  - rewrite assignment_eq, Hsv, Hmode, Hunt, Hnil.
    destruct (decide (op_mode x1 = invalid)) as [E|_]; [by rewrite E in Hmode|].
    simpl. rewrite Himp. by destruct (decide (code ≠ Code0)).
  - unfold convDiag. destruct code; simpl; repeat split; auto; try done;
      intros [?|?]; done.
Qed.

(** ** [initConst], [initVar] and [initVars]: results and failures *)

(** X5. [initConst] panics in one case only, the failed [assert] of line
    117: a constant operand that passed the guard of line 102 and whose type
    is not a constant type. In every other case it returns. *)
Theorem initConst_panics_iff (lhs : Const) (x : operand) (s : Checker) :
  initConst lhs x s = None ↔
  op_mode x = constant_ ∧ op_typ x ≠ Typ_Invalid ∧ const_typ lhs ≠ Typ_Invalid
  ∧ isConstType (op_typ x) = false.
Proof.
  unfold initConst.
  destruct (bool_decide (op_mode x = invalid) || bool_decide (op_typ x = Typ_Invalid)
            || bool_decide (const_typ lhs = Typ_Invalid)) eqn:Hguard.
  { split; [done|]. intros (Hm & Ht & Hl & _).
    apply orb_true_iff in Hguard as [[E%bool_decide_eq_true|E%bool_decide_eq_true]%orb_true_iff
                                     |E%bool_decide_eq_true]; [|done|done].
    by rewrite Hm in E. }
  apply orb_false_iff in Hguard as [[Hm%bool_decide_eq_false Ht%bool_decide_eq_false]%orb_false_iff
                                    Hl%bool_decide_eq_false].
  destruct (decide (op_mode x ≠ constant_)) as [Hc|Hc].
  { mstep. split; [done|]. by intros (? & _). }
  apply dec_stable in Hc.
  destruct (isConstType (op_typ x)) eqn:Hct; simpl.
  - destruct (assignment_total x
                (const_typ (if decide (const_typ lhs = nilType)
                            then const_set_typ (op_typ x) lhs else lhs))
                "constant declaration" s) as (x' & s' & tr & E).
    rewrite (bind_run _ _ _ _ _ _ E).
    split; [by destruct (decide (op_mode x' = invalid))|]. by intros (_ & _ & _ & ?).
  - done.
Qed.

(** X6. What the result of [initVar] means: [initVar] returns; if the
    operand is invalid afterwards the result is nil; and a result that is not
    nil is the type of the operand afterwards, which is then valid, and is
    only returned when the operand and the declared type of the variable were
    not invalid to begin with. *)
Theorem initVar_result (lhs : VarRef) (x : operand) (context : string) (s : Checker) :
  ∃ r x' s' tr,
    initVar lhs x context s = Some ((r, x'), s', tr)
    ∧ (op_mode x' = invalid → r = nilType)
    ∧ (r ≠ nilType →
       r = op_typ x' ∧ op_mode x' ≠ invalid
       ∧ op_mode x ≠ invalid ∧ op_typ x ≠ Typ_Invalid
       ∧ var_typ (heap s lhs) ≠ Typ_Invalid).
Proof.
  assert (∀ s0, ∃ r x' s' tr,
            initVar_assign lhs x context s0 = Some ((r, x'), s', tr)
            ∧ (op_mode x' = invalid → r = nilType)
            ∧ (r ≠ nilType → r = op_typ x' ∧ op_mode x' ≠ invalid)) as Hassign.
  { intros s0.
    destruct (assignment_total x (var_typ (heap s0 lhs)) context s0) as (x2 & s2 & tr2 & E2).
    rewrite (initVar_assign_eq _ _ _ _ _ _ _ E2).
    destruct (decide (op_mode x2 = invalid)); do 4 eexists; (split; [done|]); split; done. }
  unfold initVar. mstep.
  destruct (bool_decide (op_mode x = invalid) || bool_decide (op_typ x = Typ_Invalid)
            || bool_decide (var_typ (heap s lhs) = Typ_Invalid)) eqn:Hguard.
  { destruct (decide (var_typ (heap s lhs) = nilType)); mstep;
      do 4 eexists; (split; [done|]); split; done. }
  apply orb_false_iff in Hguard as [[Hm%bool_decide_eq_false Ht%bool_decide_eq_false]%orb_false_iff
                                    Hl%bool_decide_eq_false].
  assert (∀ s0, ∃ r x' s' tr,
            initVar_assign lhs x context s0 = Some ((r, x'), s', tr)
            ∧ (op_mode x' = invalid → r = nilType)
            ∧ (r ≠ nilType →
               r = op_typ x' ∧ op_mode x' ≠ invalid
               ∧ op_mode x ≠ invalid ∧ op_typ x ≠ Typ_Invalid
               ∧ var_typ (heap s lhs) ≠ Typ_Invalid)) as Hassign'.
  { intros s0. destruct (Hassign s0) as (r & x' & s' & tr & E & Hi & Hr).
    exists r, x', s', tr. split; [done|]. split; [done|].
    intros Hne. destruct (Hr Hne). by repeat split. }
  destruct (decide (var_typ (heap s lhs) = nilType)); [|by apply Hassign'].
  destruct (isUntyped (op_typ x)).
  - destruct (decide (op_typ x = Typ_UntypedNil)); mstep; [|by apply Hassign'].
    do 4 eexists. split; [done|]. split; done.
  - mstep. by apply Hassign'.
Qed.

(** [for _, v := range l { v.used = b }] *)
Lemma forEach_setVarUsed_heap (l : list VarRef) (b : bool) s :
  ∃ s', forEach (λ v, setVarUsed v b) l s = Some (tt, s', [])
        ∧ ∀ v, v ∈ l → var_used (heap s' v) = b.
Proof.
  destruct (forEach_rule (λ v, setVarUsed v b)
              (λ i s' tr, tr = [] ∧ ∀ v, v ∈ take i l → var_used (heap s' v) = b) l)
    with (s := s) as (s' & tr & E & -> & Hused).
  - intros i v s0 tr Hv [-> Hused]. exists (usedAt v b s0), []. split; [done|].
    split; [done|]. intros w. rewrite (take_S_r _ _ _ Hv), heap_usedAt.
    destruct (decide (v = w)) as [<-|Hne]; [done|].
    intros [?|?%list_elem_of_singleton]%elem_of_app; [by apply Hused|done].
  - split; [done|]. intros v. rewrite take_0. by intros ?%elem_of_nil.
  - exists s'. split; [done|]. intros v Hv. apply Hused. by rewrite firstn_all.
Qed.

(** X7. An operand that is invalid already poisons the whole statement:
    when [initVars] gets as many operands as targets, not in the comma-ok
    form, and one of the operands is invalid, it returns with every target
    marked used. *)
Theorem initVars_invalid_operand (lhs : list VarRef) (orig_rhs : list Expr)
    (returnStmt : option Stmt) (s : Checker) (rhs : list operand) (s1 : Checker) :
  exprList orig_rhs (bool_decide (length lhs = 2) && bool_decide (returnStmt = None)) s
    = (rhs, false, s1) →
  length lhs = length rhs →
  anyInvalid rhs = true →
  ∃ s' tr,
    initVars lhs orig_rhs returnStmt s = Some (tt, s', tr)
    ∧ ∀ v, v ∈ lhs → var_used (heap s' v) = true.
Proof.
  intros Hrhs Hlen Hany.
  unfold initVars. mstep. rewrite Hrhs. simpl.
  destruct (decide (length lhs ≠ length rhs)); [done|].
  set (context := (if decide (returnStmt ≠ None) then "return statement"
                   else "assignment")%string).
  apply existsb_exists in Hany as (bad & Hbad & Hmode%bool_decide_eq_true).
  apply list_elem_of_In, list_elem_of_lookup in Hbad as [k Hk].
  destruct (forRange_rule
    (λ i l ok, let* x := fromOption (rhs !! i) in
               let* (T, _) := initVar l x context in
               ret (if decide (T = nilType) then false else ok))
    (λ i ok _ _, k < i → ok = false) lhs) with (st := true) (s := s1)
    as (ok & s2 & tr & E & Hok); [|lia|].
  - intros i l ok s0 tr Hl Hinv.
    assert (is_Some (rhs !! i)) as [x Hx].
    { apply lookup_lt_is_Some_2. rewrite <- Hlen. by eapply lookup_lt_Some. }
    rewrite Hx. mstep.
    destruct (initVar_total l x context s0) as (T & x' & s' & tr' & E' & _).
    rewrite (bind_run _ _ _ _ _ _ E'). mstep.
    do 3 eexists. split; [done|]. intros Hki.
    destruct (decide (T = nilType)) as [_|HT]; [done|].
    destruct (decide (k = i)) as [->|Hne]; [|apply Hinv; lia].
    rewrite Hk in Hx. injection Hx as <-.
    destruct (initVar_marks_used _ _ _ _ _ _ _ _ E') as [HT' _]; [by left|done].
  - rewrite (bind_run _ _ _ _ _ _ E).
    rewrite Hok by (rewrite Hlen; by eapply lookup_lt_Some).
    destruct (forEach_setVarUsed_heap lhs true s2) as (s3 & Hs3 & Hused).
    unfold setVarUsed in Hs3. rewrite Hs3. simpl. by eauto.
Qed.

(** ** [lhsVar] and [assignVar]: which left-hand sides are accepted *)

(** [lhsVar] on anything but the blank identifier, branch by branch. *)
Lemma lhsVar_eq lhs s x s1 :
  asName (unparen lhs) ≠ Some "_"%string →
  expr lhs s = (x, s1) →
  lhsVar lhs s =
    let sr := lhsRestore lhs s s1 in
    if bool_decide (op_mode x = invalid) || bool_decide (op_typ x = Typ_Invalid) then
      Some (Typ_Invalid, sr, [])
    else if addressable (op_mode x) then Some (op_typ x, sr, [])
    else
      match op_expr x with
      | Some (SelectorExpr X _) =>
          let '(op, s2) := expr X sr in
          Some (Typ_Invalid, s2,
                [EvReport (if decide (op_mode op = mapindex) then fieldInMapDiag x
                           else cannotAssignToDiag x)])
      | _ => Some (Typ_Invalid, sr, [EvReport (cannotAssignToDiag x)])
      end.
Proof.
  intros Hblank Hexpr. unfold lhsVar, lhsRestore.
  destruct (decide (asName (unparen lhs) = Some "_"%string)); [done|].
  assert (∀ sr,
    ((if bool_decide (op_mode x = invalid) || bool_decide (op_typ x = Typ_Invalid)
      then ret Typ_Invalid
      else
        match op_mode x with
        | invalid => ret Typ_Invalid
        | variable | mapindex => ret (op_typ x)
        | _ =>
            let* handled :=
              match op_expr x with
              | Some (SelectorExpr X _) =>
                  let* op := call (expr X) in
                  if decide (op_mode op = mapindex) then
                    errorf (atOperand x) UnaddressableFieldAssign
                      "cannot assign to struct field %s in map" [ArgExpr (op_expr x)] ;;;
                    ret true
                  else ret false
              | _ => ret false
              end in
            if handled : bool then ret Typ_Invalid
            else
              errorf (atOperand x) UnassignableOperand "cannot assign to %s"
                [ArgOperand x] ;;;
              ret Typ_Invalid
        end) : M GoType) sr =
    if bool_decide (op_mode x = invalid) || bool_decide (op_typ x = Typ_Invalid) then
      Some (Typ_Invalid, sr, [])
    else if addressable (op_mode x) then Some (op_typ x, sr, [])
    else
      match op_expr x with
      | Some (SelectorExpr X _) =>
          let '(op, s2) := expr X sr in
          Some (Typ_Invalid, s2,
                [EvReport (if decide (op_mode op = mapindex) then fieldInMapDiag x
                           else cannotAssignToDiag x)])
      | _ => Some (Typ_Invalid, sr, [EvReport (cannotAssignToDiag x)])
      end) as Hrest.
  { intros sr.
    destruct (bool_decide (op_mode x = invalid) || bool_decide (op_typ x = Typ_Invalid)) eqn:Hg;
      [done|].
    apply orb_false_iff in Hg as [Hm%bool_decide_eq_false _].
    unfold fieldInMapDiag, cannotAssignToDiag.
    destruct (op_mode x); try done; simpl;
      (destruct (op_expr x) as [[| |X Sel| |]|]; mstep; try done;
       destruct (expr X sr) as [op s2]; simpl;
       destruct (decide (op_mode op = mapindex)); mstep; done). }
  destruct (asName (unparen lhs)) as [name|].
  - mstep. destruct (lookup name s ≫= asVar) as [w|]; mstep.
    + destruct (decide (var_pkg (heap s w) = pkg s)); mstep; rewrite Hexpr; simpl;
        apply Hrest.
    + rewrite Hexpr. simpl. apply Hrest.
  - mstep. rewrite Hexpr. simpl. apply Hrest.
Qed.

(** X8. [lhsVar] accepts variables and map index expressions and nothing
    else. For a left-hand side other than the blank identifier whose
    evaluation gives the operand [x]: an invalid operand or one of invalid
    type gives the invalid type and no diagnostic (the error was reported
    before); a variable or map index expression gives its type and no
    diagnostic; every other operand gives the invalid type and exactly one
    diagnostic, "cannot assign to struct field ... in map" or "cannot assign
    to ...". *)
Theorem lhsVar_accepts_addressable (lhs : Expr) (s : Checker) (x : operand) (s1 : Checker) :
  asName (unparen lhs) ≠ Some "_"%string →
  expr lhs s = (x, s1) →
  ∃ T s' tr,
    lhsVar lhs s = Some (T, s', tr)
    ∧ (op_mode x = invalid ∨ op_typ x = Typ_Invalid → T = Typ_Invalid ∧ tr = [])
    ∧ (op_typ x ≠ Typ_Invalid → addressable (op_mode x) = true → T = op_typ x ∧ tr = [])
    ∧ (op_mode x ≠ invalid → op_typ x ≠ Typ_Invalid → addressable (op_mode x) = false →
       T = Typ_Invalid
       ∧ (tr = [EvReport (fieldInMapDiag x)] ∨ tr = [EvReport (cannotAssignToDiag x)])).
Proof.
  intros Hblank Hexpr. rewrite (lhsVar_eq _ _ _ _ Hblank Hexpr). cbv zeta.
  destruct (bool_decide (op_mode x = invalid) || bool_decide (op_typ x = Typ_Invalid)) eqn:Hg.
  { do 3 eexists. split; [done|]. split; [done|].
    apply orb_true_iff in Hg as [Hm%bool_decide_eq_true|Ht%bool_decide_eq_true].
    - split; [|done]. intros _ Ha. rewrite Hm in Ha. done.
    - split; done. }
  apply orb_false_iff in Hg as [Hm%bool_decide_eq_false Ht%bool_decide_eq_false].
  destruct (addressable (op_mode x)) eqn:Ha.
  { do 3 eexists. split; [done|]. split; [intros [?|?]; done|]. split; done. }
  assert (∀ (T : GoType) (tr : list Event),
            T = Typ_Invalid →
            tr = [EvReport (fieldInMapDiag x)] ∨ tr = [EvReport (cannotAssignToDiag x)] →
            (op_mode x = invalid ∨ op_typ x = Typ_Invalid → T = Typ_Invalid ∧ tr = [])
            ∧ (op_typ x ≠ Typ_Invalid → false = true → T = op_typ x ∧ tr = [])
            ∧ (op_mode x ≠ invalid → op_typ x ≠ Typ_Invalid → false = false →
               T = Typ_Invalid
               ∧ (tr = [EvReport (fieldInMapDiag x)]
                  ∨ tr = [EvReport (cannotAssignToDiag x)]))) as Hout.
  { intros T tr -> Htr. split; [intros [?|?]; done|]. split; done. }
  destruct (op_expr x) as [[| |X Sel| |]|];
    try (do 3 eexists; split; [done|]; apply Hout; [done|by right]).
  destruct (expr X (lhsRestore lhs s s1)) as [op s2].
  do 3 eexists. split; [done|]. apply Hout; [done|].
  destruct (decide (op_mode op = mapindex)); auto.
Qed.

(** X9. A field of a map element: when the left-hand side is not an
    identifier and evaluates to an operand that is not addressable and whose
    expression is a selector, [lhsVar] evaluates the base of the selector
    once more and reports "cannot assign to struct field ... in map" exactly
    when the base is a map index expression, and "cannot assign to ..."
    otherwise; the result is the invalid type either way. *)
Theorem lhsVar_field_of_map_element (lhs : Expr) (s : Checker) (x : operand)
    (s1 : Checker) (X : Expr) (Sel : string) (op : operand) (s2 : Checker) :
  asName (unparen lhs) = None →
  expr lhs s = (x, s1) →
  op_mode x ≠ invalid →
  op_typ x ≠ Typ_Invalid →
  addressable (op_mode x) = false →
  op_expr x = Some (SelectorExpr X Sel) →
  expr X s1 = (op, s2) →
  lhsVar lhs s =
    Some (Typ_Invalid, s2,
          [EvReport (if decide (op_mode op = mapindex) then fieldInMapDiag x
                     else cannotAssignToDiag x)]).
Proof.
  intros Hname Hexpr Hm Ht Ha Hsel Hbase.
  rewrite (lhsVar_eq _ _ _ _ ltac:(by rewrite Hname) Hexpr). cbv zeta.
  unfold lhsRestore. rewrite Hname, Ha, Hsel, Hbase.
  by rewrite !bool_decide_eq_false_2 by done.
Qed.

(** [lhsVar] always returns. *)
Lemma lhsVar_total lhs s : ∃ T s' tr, lhsVar lhs s = Some (T, s', tr).
Proof.
  destruct (decide (asName (unparen lhs) = Some "_"%string)) as [Hb|Hb].
  - unfold lhsVar. destruct (decide (asName (unparen lhs) = Some "_"%string)); [|done].
    mstep. by eauto.
  - destruct (expr lhs s) as [x s1] eqn:Hexpr.
    rewrite (lhsVar_eq _ _ _ _ Hb Hexpr). cbv zeta.
    destruct (bool_decide (op_mode x = invalid) || bool_decide (op_typ x = Typ_Invalid));
      [by eauto|].
    destruct (addressable (op_mode x)); [by eauto|].
    destruct (op_expr x) as [[| |X Sel| |]|]; try by eauto.
    destruct (expr X (lhsRestore lhs s s1)) as [op s2]. by eauto.
Qed.

(** X10. A typed value can always be assigned to the blank identifier:
    [assignVar] does not evaluate the left-hand side (it only records the
    definition of [_]), checks the operand in the context "assignment to _
    identifier" without an assignability query, and returns the type of the
    operand, whatever that type is; the advisory for generic functions is the
    only possible diagnostic. (The nil type is not the invalid type.) *)
Theorem assignVar_blank (lhs : Expr) (x : operand) (s : Checker) (x1 : operand)
    (s1 : Checker) :
  asName (unparen lhs) = Some "_"%string →
  nilType ≠ Typ_Invalid →
  op_mode x ≠ invalid →
  op_typ x ≠ Typ_Invalid →
  singleValue x (recordDef (unparen lhs) None s) = (x1, s1) →
  assignable_mode (op_mode x1) = true →
  isUntyped (op_typ x1) = false →
  assignVar lhs x s =
    Some ((op_typ x1, x1), s1, genericEvents x1 "assignment to _ identifier").
Proof.
  intros Hname Hnil Hm Ht Hsv Hmode Hunt. unfold assignVar.
  rewrite !bool_decide_eq_false_2 by done. simpl.
  assert (lhsVar lhs s = Some (nilType, recordDef (unparen lhs) None s, [])) as Hlhs.
  { unfold lhsVar. destruct (decide (asName (unparen lhs) = Some "_"%string)); [|done].
    by mstep. }
  rewrite (bind_run _ _ _ _ _ _ Hlhs). simpl.
  destruct (decide (nilType = Typ_Invalid)); [done|].
  destruct (decide (nilType = nilType)); [|done].
  assert (assignment x nilType "assignment to _ identifier" (recordDef (unparen lhs) None s)
          = Some (x1, s1, genericEvents x1 "assignment to _ identifier")) as Hassign.
  { rewrite assignment_eq, Hsv, Hmode, Hunt.
    destruct (decide (op_mode x1 = invalid)) as [E|_]; [by rewrite E in Hmode|]. simpl.
    apply assignment_typed_blank. }
  rewrite (bind_run _ _ _ _ _ _ Hassign).
  destruct (decide (op_mode x1 = invalid)) as [E|_]; [by rewrite E in Hmode|].
  simpl. by rewrite app_nil_r.
Qed.

(** X11. What the result of [assignVar] means: [assignVar] returns; if
    the operand is invalid afterwards the result is nil; a result that is not
    nil is the type of the operand afterwards, which is then valid and was
    valid before; and when the left-hand side is rejected by [lhsVar], the
    operand is not checked at all: it comes back untouched, and the
    diagnostics are those of [lhsVar]. *)
Theorem assignVar_result (lhs : Expr) (x : operand) (s : Checker) :
  ∃ r x' s' tr,
    assignVar lhs x s = Some ((r, x'), s', tr)
    ∧ (op_mode x' = invalid → r = nilType)
    ∧ (r ≠ nilType →
       r = op_typ x' ∧ op_mode x' ≠ invalid ∧ op_mode x ≠ invalid ∧ op_typ x ≠ Typ_Invalid)
    ∧ (∀ s1 tr1,
         op_mode x ≠ invalid → op_typ x ≠ Typ_Invalid →
         lhsVar lhs s = Some (Typ_Invalid, s1, tr1) →
         r = nilType ∧ x' = x ∧ s' = s1 ∧ tr = tr1).
Proof.
  unfold assignVar.
  destruct (bool_decide (op_mode x = invalid) || bool_decide (op_typ x = Typ_Invalid)) eqn:Hg.
  { mstep. do 4 eexists. split; [done|]. split; [done|]. split; [done|].
    intros s1 tr1 Hm Ht.
    apply orb_true_iff in Hg as [?%bool_decide_eq_true|?%bool_decide_eq_true]; done. }
  apply orb_false_iff in Hg as [Hm%bool_decide_eq_false Ht%bool_decide_eq_false].
  destruct (lhsVar_total lhs s) as (T & s1 & tr1 & Hlhs).
  rewrite (bind_run _ _ _ _ _ _ Hlhs).
  destruct (decide (T = Typ_Invalid)) as [->|HT].
  { simpl. rewrite app_nil_r. do 4 eexists. split; [done|]. split; [done|].
    split; [done|]. intros s2 tr2 _ _ E2. rewrite Hlhs in E2.
    injection E2 as <- <-. done. }
  set (context := if decide (T = nilType) then "assignment to _ identifier"%string
                  else "assignment"%string).
  destruct (assignment_total x T context s1) as (x' & s' & tr & E).
  rewrite (bind_run _ _ _ _ _ _ E).
  destruct (decide (op_mode x' = invalid)); simpl; rewrite app_nil_r;
    do 4 eexists; (split; [done|]); (split; [done|]); (split; [done|]);
    intros s2 tr2 _ _ E2; rewrite Hlhs in E2; by injection E2.
Qed.

(** ** [assignError] and [assignVars] *)

(** X12. [assignError] reads [rhs[0]] before anything else, so it panics
    on an empty right-hand side; otherwise it reports exactly one
    [WrongAssignCount] diagnostic at the first right-hand expression, in the
    wording "... but f returns ..." when the right-hand side is a single,
    possibly parenthesized, call of [f], and in the plain wording in every
    other case. *)
Theorem assignError_form (rhs : list Expr) (nvars nvals : Z) (s : Checker) :
  assignError rhs nvars nvals s =
    match rhs with
    | [] => None
    | rhs0 :: _ =>
        Some (tt, s,
              [EvReport match singleCall rhs with
                        | Some Fun => mismatchCallDiag rhs0 Fun nvars nvals
                        | None => mismatchDiag rhs0 nvars nvals
                        end])
    end.
Proof.
  unfold assignError. destruct rhs as [|rhs0 rest]; [done|]. simpl. mstep.
  destruct rest as [|rhs1 rest]; simpl.
  - destruct (decide (1 = 1)); [|done]. destruct (unparen rhs0); by mstep.
  - destruct (decide (S (S (length rest)) = 1)); [lia|]. by mstep.
Qed.

(** X13. When the number of left-hand expressions of [assignVars] differs
    from the number of operands, no left-hand side is resolved as a target
    and no operand is checked: the left-hand expressions are only passed to
    [use], and exactly one diagnostic is reported, the assignment mismatch of
    [assignError], unless an operand is invalid already, in which case
    nothing is reported. (An assignment has a right-hand side.) *)
Theorem assignVars_arity_mismatch (lhs orig_rhs : list Expr) (s : Checker)
    (rhs : list operand) (commaOk : bool) (s1 : Checker) :
  exprList orig_rhs (bool_decide (length lhs = 2)) s = (rhs, commaOk, s1) →
  length lhs ≠ length rhs →
  orig_rhs ≠ [] →
  ∃ tr,
    assignVars lhs orig_rhs s = Some (tt, use lhs s1, tr)
    ∧ (anyInvalid rhs = true → tr = [])
    ∧ (anyInvalid rhs = false →
       ∃ d, tr = [EvReport d] ∧ d_code d = WrongAssignCount ∧ d_soft d = false).
Proof.
  intros Hrhs Hlen Hne. unfold assignVars. mstep. rewrite Hrhs. simpl.
  destruct (decide (length lhs ≠ length rhs)); [|done]. mstep.
  destruct (anyInvalid rhs).
  - exists []. by repeat split.
  - destruct (assignError_eq orig_rhs (Z.of_nat (length lhs)) (Z.of_nat (length rhs))
                (use lhs s1) Hne) as (d & -> & Hcode & Hsoft).
    exists [EvReport d]. split; [done|]. split; [done|]. intros _. by exists d.
Qed.

(** ** [typesSummary] *)

(** Outside the case of line 298 the string of a type does not depend on
    its position. *)
Lemma typeSummary_plain n variadic i t :
  variadic = false ∨ S i ≠ n ∨ t = nilType ∨ t = Typ_Invalid ∨ isUntyped t = true →
  typeSummary n variadic i t = Some (typeText t).
Proof.
  intros H. unfold typeSummary, typeText.
  destruct (bool_decide (t = nilType) || bool_decide (t = Typ_Invalid)) eqn:Hinv; [done|].
  apply orb_false_iff in Hinv as [Hn%bool_decide_eq_false Hi%bool_decide_eq_false].
  destruct (isUntyped t); [by destruct (isNumeric t)|].
  destruct H as [->|[H|[H|[H|H]]]]; try done.
  rewrite bool_decide_eq_false_2 by lia. by rewrite andb_false_r.
Qed.

(** The case of line 298: the last type of a variadic summary. *)
Lemma typeSummary_last n t :
  t ≠ nilType → t ≠ Typ_Invalid → isUntyped t = false →
  typeSummary (S n) true n t = (λ e, "..." +:+ typeString e) <$> sliceElem t.
Proof.
  intros Hn Hi Hu. unfold typeSummary.
  rewrite !bool_decide_eq_false_2 by done. rewrite Hu. simpl.
  rewrite bool_decide_eq_true_2 by lia. by destruct (sliceElem t).
Qed.

Lemma mapM_typeSummary n variadic (l : list GoType) (k : list string) :
  length l = length k →
  (∀ i t str, l !! i = Some t → k !! i = Some str → typeSummary n variadic i t = Some str) →
  mapM (λ '(i, t), typeSummary n variadic i t) (imap pair l) = Some k.
Proof.
  intros Hlen Hall. apply mapM_Some_2, Forall2_same_length_lookup_2.
  - by rewrite length_imap.
  - intros i [j t] str Hit Hk. rewrite list_lookup_imap in Hit.
    destruct (l !! i) as [t'|] eqn:Hl; [|done]. injection Hit as <- <-. by eapply Hall.
Qed.

(** X14. [typesSummary] never panics and gives the parenthesized,
    comma-separated strings of the types, each independent of its position,
    unless the summary is variadic and its last type is a valid typed type;
    in particular the untyped numeric, the nil and the invalid types keep
    their strings ("number", "unknown type") as the last type of a variadic
    summary. *)
Theorem typesSummary_plain (l : list GoType) (variadic : bool) :
  (variadic = true →
   ∀ t, last l = Some t → t = nilType ∨ t = Typ_Invalid ∨ isUntyped t = true) →
  typesSummary l variadic = Some ("(" +:+ strings_Join (typeText <$> l) ", " +:+ ")").
Proof.
  intros Hlast. unfold typesSummary.
  rewrite (mapM_typeSummary (length l) variadic l (typeText <$> l)); [done| |].
  - by rewrite length_fmap.
  - intros i t str Ht Hstr. rewrite list_lookup_fmap, Ht in Hstr. injection Hstr as <-.
    apply typeSummary_plain. destruct variadic; [|by left]. right.
    destruct (decide (S i = length l)) as [Hi|Hi]; [|by left]. right.
    apply Hlast; [done|]. rewrite last_lookup, <- Hi. done.
Qed.

(** X15. A variadic summary whose last type is a valid typed type renders
    that type as "...E" for the element type E of the slice it must be, the
    types before it as in every summary; and it panics when the last type is
    not a slice (the type assertion of line 299). *)
Theorem typesSummary_variadic (l : list GoType) (t : GoType) :
  t ≠ nilType →
  t ≠ Typ_Invalid →
  isUntyped t = false →
  typesSummary (l ++ [t]) true =
    match sliceElem t with
    | Some elem =>
        Some ("(" +:+ strings_Join ((typeText <$> l) ++ ["..." +:+ typeString elem]) ", "
              +:+ ")")
    | None => None
    end.
Proof.
  intros Hn Hi Hu. unfold typesSummary.
  assert (length (l ++ [t]) = S (length l)) as Hlen by (rewrite length_app; simpl; lia).
  rewrite Hlen.
  destruct (sliceElem t) as [elem|] eqn:He.
  - rewrite (mapM_typeSummary (S (length l)) true (l ++ [t])
               ((typeText <$> l) ++ ["..." +:+ typeString elem])); [done| |].
    + rewrite !length_app, length_fmap. done.
    + intros i t' str Ht Hstr.
      destruct (decide (i < length l)) as [Hlt|Hge].
      * rewrite lookup_app_l in Ht by done.
        rewrite lookup_app_l, list_lookup_fmap, Ht in Hstr by (by rewrite length_fmap).
        injection Hstr as <-. apply typeSummary_plain. right. left. lia.
      * assert (i = length l) as ->.
        { apply lookup_lt_Some in Ht. rewrite Hlen in Ht. lia. }
        rewrite list_lookup_middle in Ht by done. injection Ht as <-.
        rewrite list_lookup_middle in Hstr by (by rewrite length_fmap).
        injection Hstr as <-. rewrite typeSummary_last by done. by rewrite He.
  - rewrite mapM_None_2; [done|]. apply Exists_exists.
    exists (length l, t). split.
    + apply list_elem_of_lookup. exists (length l).
      rewrite list_lookup_imap, list_lookup_middle by done. done.
    + rewrite typeSummary_last by done. by rewrite He.
Qed.

(** ** [shortVarDecl]: the left-hand side *)

Lemma lt_S_ex (P : nat → Prop) i :
  (∃ j, j < S i ∧ P j) ↔ (∃ j, j < i ∧ P j) ∨ P i.
Proof.
  split.
  - intros (j & Hj & HP). destruct (decide (j = i)) as [->|Hne]; [by right|].
    left. exists j. split; [lia|done].
  - intros [(j & Hj & HP)|HP]; [exists j|exists i]; (split; [lia|done]).
Qed.

Lemma elem_of_report_singleton (d d' : Diag) :
  EvReport d ∈ [EvReport d'] ↔ d = d'.
Proof. rewrite list_elem_of_singleton. split; [by intros [= ->]|by intros ->]. Qed.

(** One iteration of the first loop: what it reports, what it records in
    [seen], and which entries of [lhsVars] and [newVars] it writes. *)
Lemma collectLhs_step_inv sc i e st s :
  let rep := match asName e with
             | Some name => bool_decide (name ≠ "_"%string) && default false (seen st !! name)
             | None => false
             end in
  ∃ st' s' tr,
    collectLhs_step sc i e st s = Some (st', s', tr)
    ∧ (∀ e0, EvReport (repeatedDiag e0) ∈ tr ↔ e0 = e ∧ rep = true)
    ∧ (∀ e0, EvReport (nonNameDiag e0) ∈ tr ↔ e0 = e ∧ asName e = None)
    ∧ (∀ name, name ≠ "_"%string →
         default false (seen st' !! name) = true ↔
           default false (seen st !! name) = true ∨ asName e = Some name)
    ∧ (∀ j, j ≠ i → lhsVars st' !! j = lhsVars st !! j)
    ∧ (∀ v, v ∈ newVars st' →
         v ∈ newVars st
         ∨ ∃ name, asName e = Some name ∧ name ≠ "_"%string ∧ rep = false
                   ∧ (i < length (lhsVars st) → lhsVars st' !! i = Some (Some v))).
Proof.
  intros rep. subst rep. unfold collectLhs_step.
  destruct (asName e) as [name|] eqn:Hname.
  2: { mstep. do 3 eexists. split; [done|]. split; [|split; [|split; [|split]]].
       - intros e0. rewrite elem_of_report_singleton. split; [done|by intros [_ ?]].
       - intros e0. rewrite elem_of_report_singleton. unfold nonNameDiag.
         split; [by intros [= ->]|by intros [-> _]].
       - intros name _. simpl. split; [by left|by intros [?|?]].
       - done.
       - intros v Hv. by left. }
  destruct (bool_decide (name ≠ "_"%string) && default false (seen st !! name)) eqn:Hrep.
  { apply andb_true_iff in Hrep as [Hb%bool_decide_eq_true Hs].
    mstep. do 3 eexists. split; [done|]. split; [|split; [|split; [|split]]].
    - intros e0. rewrite elem_of_report_singleton. unfold repeatedDiag.
      split; [by intros [= ->]|by intros [-> _]].
    - intros e0. rewrite elem_of_report_singleton. split; [done|by intros [_ ?]].
    - intros name0 _. simpl. split; [by left|]. intros [?|[= <-]]; done.
    - done.
    - intros v Hv. by left. }
  assert (∀ name0, name0 ≠ "_"%string →
            default false
              ((if decide (name ≠ "_"%string) then <[name:=true]> (seen st) else seen st)
                 !! name0) = true ↔
            default false (seen st !! name0) = true ∨ Some name = Some name0) as Hseen.
  { intros name0 Hne0. destruct (decide (name ≠ "_"%string)) as [Hb|Hb].
    - destruct (decide (name = name0)) as [->|Hne].
      + rewrite lookup_insert_eq. simpl. split; [by right|done].
      + rewrite lookup_insert_ne by done. split; [by left|]. intros [?|[= ?]]; done.
    - split; [by left|]. intros [?|[= <-]]; [done|]. by destruct Hb. }
  mstep. destruct (Scope_Lookup sc name s) as [alt|] eqn:Hlook.
  - mstep. destruct (asVar alt) as [obj|]; mstep.
    + do 3 eexists. split; [done|]. split; [|split; [|split; [|split]]].
      * intros e0. split; [by intros ?%not_elem_of_nil|by intros [_ ?]].
      * intros e0. split; [by intros ?%not_elem_of_nil|by intros [_ ?]].
      * done.
      * intros j Hj. simpl. by rewrite list_lookup_insert_ne.
      * intros v Hv. by left.
    + do 3 eexists. split; [done|]. split; [|split; [|split; [|split]]].
      * intros e0. rewrite elem_of_report_singleton. split; [done|by intros [_ ?]].
      * intros e0. rewrite elem_of_report_singleton. split; [done|by intros [_ ?]].
      * done.
      * done.
      * intros v Hv. by left.
  - mstep. do 3 eexists. split; [done|]. split; [|split; [|split; [|split]]].
    + intros e0. split; [by intros ?%not_elem_of_nil|by intros [_ ?]].
    + intros e0. split; [by intros ?%not_elem_of_nil|by intros [_ ?]].
    + done.
    + intros j Hj. simpl. by rewrite list_lookup_insert_ne.
    + simpl. intros v Hv. destruct (decide (name ≠ "_"%string)) as [Hb|Hb]; [|by left].
      apply elem_of_app in Hv as [Hv|Hv%list_elem_of_singleton]; [by left|]. subst v.
      right. exists name. split; [done|]. split; [done|]. split; [done|].
      intros Hi. by rewrite list_lookup_insert_eq.
Qed.


Lemma repeated_at lhs i e :
  lhs !! i = Some e →
  repeated lhs i =
    match asName e with
    | Some name =>
        bool_decide (name ≠ "_"%string) && bool_decide (Some name ∈ asName <$> take i lhs)
    | None => false
    end.
Proof. intros H. unfold repeated. by rewrite H. Qed.

(** The first loop: [seen] holds the names other than "_" met so far, the
    "repeated" and "non-name" diagnostics are those of the repeated names and
    of the expressions that are no names, and a new variable is the entry of
    [lhsVars] at the index of a name that is not "_" and not repeated. *)
Lemma collectLhs_inv sc lhs s :
  ∃ st s1 tr1,
    collectLhs sc lhs s = Some (st, s1, tr1)
    ∧ (∀ e, EvReport (repeatedDiag e) ∈ tr1 ↔ ∃ j, lhs !! j = Some e ∧ repeated lhs j = true)
    ∧ (∀ e, EvReport (nonNameDiag e) ∈ tr1 ↔ e ∈ lhs ∧ asName e = None)
    ∧ length (lhsVars st) = length lhs
    ∧ (∀ v, v ∈ newVars st →
         ∃ j e name, lhs !! j = Some e ∧ asName e = Some name ∧ name ≠ "_"%string
                     ∧ repeated lhs j = false ∧ lhsVars st !! j = Some (Some v)).
Proof.
  destruct (forRange_rule (collectLhs_step sc)
    (λ i st _ tr,
       (∀ name, name ≠ "_"%string →
          default false (seen st !! name) = true ↔ Some name ∈ asName <$> take i lhs)
       ∧ (∀ e, EvReport (repeatedDiag e) ∈ tr ↔
               ∃ j, j < i ∧ lhs !! j = Some e ∧ repeated lhs j = true)
       ∧ (∀ e, EvReport (nonNameDiag e) ∈ tr ↔
               ∃ j, j < i ∧ lhs !! j = Some e ∧ asName e = None)
       ∧ length (lhsVars st) = length lhs
       ∧ (∀ v, v ∈ newVars st →
            ∃ j, j < i ∧ ∃ e name, lhs !! j = Some e ∧ asName e = Some name
                 ∧ name ≠ "_"%string ∧ repeated lhs j = false
                 ∧ lhsVars st !! j = Some (Some v))) lhs)
    with (st := lhsInit lhs) (s := s) as (st & s1 & tr1 & E & _ & Hb & Hc & Hd & He).
  - intros i e st0 s0 tr Hi (Ha & Hb & Hc & Hd & He).
    destruct (collectLhs_step_inv sc i e st0 s0)
      as (st' & s' & tr' & E & Hb' & Hc' & Ha' & Hl' & He').
    destruct (collectLhs_step_spec sc i e st0 s0)
      as (st2 & s2 & tr2 & E2 & _ & _ & Hd' & _).
    rewrite E in E2. injection E2 as <- <- <-.
    assert (match asName e with
            | Some name =>
                bool_decide (name ≠ "_"%string) && default false (seen st0 !! name)
            | None => false
            end = repeated lhs i) as Hrep.
    { rewrite (repeated_at _ _ _ Hi). destruct (asName e) as [name|]; [|done].
      destruct (decide (name ≠ "_"%string)) as [Hn|Hn].
      - rewrite bool_decide_eq_true_2 by done. simpl. specialize (Ha name Hn).
        destruct (default false (seen st0 !! name)); symmetry.
        + by apply bool_decide_eq_true_2, Ha.
        + apply bool_decide_eq_false_2. intros Hin%Ha. done.
      - by rewrite bool_decide_eq_false_2 by done. }
    rewrite Hrep in Hb', He'.
    exists st', s', tr'. split; [done|]. split; [|split; [|split; [|split]]].
    + intros name Hn. rewrite (take_S_r _ _ _ Hi), fmap_app, elem_of_app, (Ha' name Hn),
        (Ha name Hn). simpl. rewrite list_elem_of_singleton. split; intros [?|?]; auto.
    + intros e0. rewrite elem_of_app, Hb, Hb'. split.
      * intros [(j & Hj & Hje & Hjr)|[-> Hr]].
        -- exists j. split; [lia|done].
        -- exists i. split; [lia|done].
      * intros (j & Hj & Hje & Hjr). destruct (decide (j = i)) as [->|Hne].
        -- right. rewrite Hi in Hje. by injection Hje as ->.
        -- left. exists j. split; [lia|done].
    + intros e0. rewrite elem_of_app, Hc, Hc'. split.
      * intros [(j & Hj & Hje & Hjr)|[-> Hr]].
        -- exists j. split; [lia|done].
        -- exists i. split; [lia|done].
      * intros (j & Hj & Hje & Hjr). destruct (decide (j = i)) as [->|Hne].
        -- right. rewrite Hi in Hje. by injection Hje as ->.
        -- left. exists j. split; [lia|done].
    + congruence.
    + intros v [Hv|(name & Hname & Hn & Hr & Hv)]%He'.
      * destruct (He v Hv) as (j & Hj & e1 & name & Hje & Hname & Hn & Hr & Hv').
        exists j. split; [lia|]. exists e1, name. rewrite Hl' by lia. done.
      * exists i. split; [lia|]. exists e, name. split; [done|]. split; [done|].
        split; [done|]. split; [done|]. apply Hv. rewrite Hd.
        by eapply lookup_lt_Some.
  - split; [|split; [|split; [|split]]].
    + intros name _. simpl. rewrite lookup_empty. simpl. split; [done|].
      by intros ?%not_elem_of_nil.
    + intros e. split; [by intros ?%not_elem_of_nil|]. intros (j & Hj & _). lia.
    + intros e. split; [by intros ?%not_elem_of_nil|]. intros (j & Hj & _). lia.
    + simpl. apply length_replicate.
    + simpl. by intros v ?%not_elem_of_nil.
  - exists st, s1, tr1. split; [done|]. split; [|split; [|split]].
    + intros e. rewrite Hb. split.
      * intros (j & _ & H). by exists j.
      * intros (j & Hje & H). exists j. split; [by eapply lookup_lt_Some|done].
    + intros e. rewrite Hc, list_elem_of_lookup. split.
      * intros (j & _ & Hje & H). split; [by exists j|done].
      * intros [(j & Hje) H]. exists j. split; [by eapply lookup_lt_Some|done].
    + done.
    + intros v Hv. destruct (He v Hv) as (j & _ & e & name & H). by exists j, e, name.
Qed.

(** The second loop keeps the variables the first loop found. *)
Lemma fillDummies_keeps (lhs : list Expr) (vars : list (option VarRef)) s :
  length vars = length lhs →
  ∃ res s', fillDummies lhs vars s = Some (res, s', [])
            ∧ length res = length vars
            ∧ ∀ j v, vars !! j = Some (Some v) → res !! j = Some v.
Proof.
  intros Hlen. unfold fillDummies.
  destruct (forRange_rule
    (λ i obj acc,
       match obj with
       | Some v => ret (acc ++ [v])
       | None =>
           let* e := fromOption (lhs !! i) in
           let* p := gets pkg in
           let* v := call (NewVar (Expr_Pos e) p "_" nilType) in
           ret (acc ++ [v])
       end)
    (λ i acc _ tr, tr = [] ∧ length acc = i
                   ∧ ∀ j v, j < i → vars !! j = Some (Some v) → acc !! j = Some v) vars)
    with (st := @nil VarRef) (s := s) as (res & s' & tr & E & -> & Hres & Hkeep).
  - intros i obj acc s0 tr Hobj (-> & Hacc & Hkeep).
    assert (∀ w j v, j < S i → vars !! j = Some (Some v) →
              obj = Some v ∨ obj = None → (obj = Some v → w = v) →
              (acc ++ [w]) !! j = Some v) as Hnext.
    { intros w j v Hj Hv Ho Hw. destruct (decide (j = i)) as [->|Hne].
      - rewrite Hobj in Hv. injection Hv as ->. rewrite (Hw eq_refl).
        apply list_lookup_middle. done.
      - rewrite lookup_app_l by lia. apply Hkeep; [lia|done]. }
    destruct obj as [v|].
    + do 3 eexists. split; [done|]. split; [done|]. split.
      * rewrite length_app. simpl. lia.
      * intros j w Hj Hw. destruct (decide (j = i)) as [->|Hne].
        -- rewrite Hobj in Hw. injection Hw as ->. by apply list_lookup_middle.
        -- rewrite lookup_app_l by lia. apply Hkeep; [lia|done].
    + assert (is_Some (lhs !! i)) as [e He].
      { apply lookup_lt_is_Some_2. rewrite <- Hlen. by eapply lookup_lt_Some. }
      rewrite He. mstep. do 3 eexists. split; [done|]. split; [done|]. split.
      * rewrite length_app. simpl. lia.
      * intros j w Hj Hw. destruct (decide (j = i)) as [->|Hne].
        -- rewrite Hobj in Hw. done.
        -- rewrite lookup_app_l by lia. apply Hkeep; [lia|done].
  - split; [done|]. split; [done|]. intros j v Hj. lia.
  - exists res, s'. split; [done|]. split; [done|]. intros j v Hv.
    apply Hkeep; [|done]. by eapply lookup_lt_Some.
Qed.

Lemma forRange_modify_eq {A} (f : A → Checker → Checker) (l : list A) i s :
  forRange (λ _ a _, modify (f a)) i l tt s = Some (tt, foldl (λ c a, f a c) s l, []).
Proof.
  revert i s. induction l as [|a l IH]; intros i s; simpl; [done|].
  mstep. apply IH.
Qed.

(** [shortVarDecl], run: the variables of the two loops are initialized, the
    delayed actions are processed, and then the new variables are declared. *)
Lemma shortVarDecl_run pos lhs rhs s st s1 tr1 :
  rhs ≠ [] →
  (∀ es b s0, (exprList es b s0).1.2 = true → b = true) →
  collectLhs (scope s) lhs s = Some (st, s1, tr1) →
  length (lhsVars st) = length lhs →
  ∃ vars s2 s3 tr3 e_last,
    fillDummies lhs (lhsVars st) s1 = Some (vars, s2, [])
    ∧ length vars = length lhs
    ∧ (∀ j v, lhsVars st !! j = Some (Some v) → vars !! j = Some v)
    ∧ initVars vars rhs None s2 = Some (tt, s3, tr3)
    ∧ last rhs = Some e_last
    ∧ shortVarDecl pos lhs rhs s =
        Some (tt,
              foldl (λ c obj, declare (scope s) obj (EndPos e_last) c)
                (processDelayed (delayedLen s) s3) (newVars st),
              tr1 ++ tr3 ++
                if bool_decide (length (newVars st) = 0) && negb (hasErr st)
                then [EvReport (noNewVarDiag pos)] else []).
Proof.
  intros Hrhs Hok E1 Hl.
  destruct (fillDummies_keeps lhs (lhsVars st) s1 Hl) as (vars & s2 & E2 & Hlen & Hkeep).
  destruct (initVars_total vars rhs None s2) as (s3 & tr3 & E3 & _); [done|done|].
  assert (is_Some (rhs !! (length rhs - 1))) as [e He'].
  { apply lookup_lt_is_Some_2. destruct rhs; [done|]. simpl. lia. }
  exists vars, s2, s3, tr3, e. split; [done|]. split; [congruence|]. split; [done|].
  split; [done|]. split.
  { rewrite last_lookup. by replace (pred (length rhs)) with (length rhs - 1) by lia. }
  unfold shortVarDecl. mstep.
  rewrite (bind_run _ _ _ _ _ _ E1). simpl.
  rewrite (bind_run _ _ _ _ _ _ E2). simpl.
  rewrite (bind_run _ _ _ _ _ _ E3). mstep.
  destruct (bool_decide (length (newVars st) = 0) && negb (hasErr st)) eqn:Hc.
  - apply andb_true_iff in Hc as [Hn%bool_decide_eq_true _].
    apply length_zero_iff_nil in Hn. rewrite Hn. mstep.
    by rewrite app_nil_r, <- app_assoc.
  - rewrite He'. mstep. unfold forEach. rewrite forRange_modify_eq. simpl.
    by rewrite !app_nil_r.
Qed.


(** X16. The first loop of [shortVarDecl] reports "repeated on left side of
    :=" for exactly the expressions of the left-hand side that are a name
    other than "_" that occurs earlier in the left-hand side, whatever the
    scope holds, and "non-name on left side of :=" for exactly the expressions
    that are no name; these diagnostics open the trace of the statement. *)
Theorem shortVarDecl_reports_repeated (pos : Pos) (lhs rhs : list Expr) (s : Checker) :
  rhs ≠ [] →
  (∀ es b s0, (exprList es b s0).1.2 = true → b = true) →
  ∃ st s1 tr1 s' tr2,
    collectLhs (scope s) lhs s = Some (st, s1, tr1)
    ∧ shortVarDecl pos lhs rhs s = Some (tt, s', tr1 ++ tr2)
    ∧ (∀ e, EvReport (repeatedDiag e) ∈ tr1 ↔
            ∃ j, lhs !! j = Some e ∧ repeated lhs j = true)
    ∧ (∀ e, EvReport (nonNameDiag e) ∈ tr1 ↔ e ∈ lhs ∧ asName e = None).
Proof.
  intros Hrhs Hok.
  destruct (collectLhs_inv (scope s) lhs s) as (st & s1 & tr1 & E1 & Hb & Hc & Hd & _).
  destruct (shortVarDecl_run pos lhs rhs s st s1 tr1 Hrhs Hok E1 Hd)
    as (vars & s2 & s3 & tr3 & e_last & _ & _ & _ & _ & _ & E).
  by eauto 10.
Qed.


(** ** [assignVars]: the fallback after a failed assignment *)

Lemma with_heap_idem h h' (c : Checker) : with_heap h (with_heap h' c) = with_heap h c.
Proof. done. Qed.

(** X18. The loop of [assignVars] that runs after a failed assignment
    returns and reports nothing; provided name resolution does not read the
    contents of variables, it sets the used flag of exactly the variables of
    the package of the checker that an expression of the left-hand side names
    (parentheses aside), and changes nothing else: no other variable, no
    other field of a variable, and no other part of the checker. *)
Theorem markUsed_frame (lhs : list Expr) (s : Checker) :
  (∀ name h c, lookup name (with_heap h c) = lookup name c) →
  ∃ s',
    markUsed lhs s = Some (tt, s', [])
    ∧ s' = with_heap (heap s') s
    ∧ (∀ w, marksUsed lhs s w → heap s' w = var_set_used true (heap s w))
    ∧ (∀ w, ¬ marksUsed lhs s w → heap s' w = heap s w).
Proof.
  intros Hlook. unfold markUsed.
  destruct (forEach_rule
    (λ l,
       match asName (unparen l) with
       | Some name =>
           let* obj := gets (lookup name) in
           match obj ≫= asVar with
           | Some v =>
               let* vv := getVar v in
               let* p := gets pkg in
               if decide (var_pkg vv = p) then setVarUsed v true else ret tt
           | None => ret tt
           end
       | None => ret tt
       end)
    (λ i c tr, tr = [] ∧ c = with_heap (heap c) s
               ∧ (∀ w, marksUsed (take i lhs) s w → heap c w = var_set_used true (heap s w))
               ∧ (∀ w, heap c w = heap s w ∨ marksUsed (take i lhs) s w)) lhs)
    with (s := s) as (s' & tr & E & -> & Hs' & HA & HB).
  - intros i l c tr Hl (-> & Hc & HA & HB).
    assert (∀ w, marksUsed (take (S i) lhs) s w ↔
                 marksUsed (take i lhs) s w
                 ∨ (var_pkg (heap s w) = pkg s
                    ∧ ∃ name, asName (unparen l) = Some name
                              ∧ lookup name s ≫= asVar = Some w)) as Hnext.
    { intros w. unfold marksUsed. rewrite (take_S_r _ _ _ Hl). split.
      - intros (Hp & l0 & name & [Hin|Hin%list_elem_of_singleton]%elem_of_app & Hn & Hw).
        + left. by eauto 10.
        + subst l0. right. by eauto.
      - intros [(Hp & l0 & name & Hin & Hn & Hw)|(Hp & name & Hn & Hw)].
        + split; [done|]. exists l0, name. rewrite elem_of_app. by auto.
        + split; [done|]. exists l, name. rewrite elem_of_app, list_elem_of_singleton.
          by auto. }
    assert (∀ w, var_pkg (heap c w) = var_pkg (heap s w)) as Hpkg.
    { intros w. destruct (HB w) as [->|Hm]; [done|]. by rewrite (HA w Hm). }
    assert (pkg c = pkg s) as Hpc by (by rewrite Hc).
    assert (∀ name, lookup name c = lookup name s) as Hlc.
    { intros name. rewrite Hc. apply Hlook. }
    assert (∃ c' , c' = c ∧ c' = with_heap (heap c') s
              ∧ (∀ w, marksUsed (take i lhs) s w → heap c' w = var_set_used true (heap s w))
              ∧ (∀ w, heap c' w = heap s w ∨ marksUsed (take i lhs) s w)) as Hsame
      by (by exists c).
    destruct (asName (unparen l)) as [name|] eqn:Hname.
    2: { exists c, []. split; [done|]. split; [done|]. split; [done|]. split.
         - intros w [Hm|(_ & name & ? & _)]%Hnext; [by apply HA|done].
         - intros w. destruct (HB w) as [?|?]; [by left|]. right. apply Hnext. by left. }
    mstep. rewrite Hlc. destruct (lookup name s ≫= asVar) as [v|] eqn:Hv.
    2: { exists c, []. split; [done|]. split; [done|]. split; [done|]. split.
         - intros w [Hm|(_ & name0 & [= <-] & Hw)]%Hnext; [by apply HA|].
           rewrite Hv in Hw. done.
         - intros w. destruct (HB w) as [?|?]; [by left|]. right. apply Hnext. by left. }
    mstep. rewrite Hpkg, Hpc. destruct (decide (var_pkg (heap s v) = pkg s)) as [Hp|Hp].
    + mstep. exists (usedAt v true c), []. split; [done|]. split; [done|].
      assert (heap c v = heap s v ∨ heap c v = var_set_used true (heap s v)) as Hcv.
      { destruct (HB v) as [?|Hm]; [by left|]. right. by apply HA. }
      assert (var_set_used true (heap c v) = var_set_used true (heap s v)) as Hset.
      { by destruct Hcv as [->| ->]. }
      split; [|split].
      * unfold usedAt. rewrite Hc at 3. by rewrite with_heap_idem.
      * intros w Hm. rewrite heap_usedAt. destruct (decide (v = w)) as [<-|Hne]; [done|].
        apply Hnext in Hm as [Hm|(_ & name0 & [= <-] & Hw)]; [by apply HA|].
        rewrite Hv in Hw. by injection Hw as ->.
      * intros w. rewrite heap_usedAt. destruct (decide (v = w)) as [<-|Hne].
        -- right. apply Hnext. right. split; [done|]. by exists name.
        -- destruct (HB w) as [?|?]; [by left|]. right. apply Hnext. by left.
    + exists c, []. split; [done|]. split; [done|]. split; [done|]. split.
      * intros w [Hm|(Hpw & name0 & [= <-] & Hw)]%Hnext; [by apply HA|].
        rewrite Hv in Hw. injection Hw as ->. done.
      * intros w. destruct (HB w) as [?|?]; [by left|]. right. apply Hnext. by left.
  - split; [done|]. split; [by destruct s|]. split.
    + intros w (_ & l & name & Hin%not_elem_of_nil & _). done.
    + intros w. by left.
  - rewrite firstn_all in HA, HB. exists s'. split; [done|]. split; [done|].
    split; [done|]. intros w Hw. by destruct (HB w).
Qed.

End Further.

(** ** The further properties on concrete statements *)

(** [var s string = 5] *)
Lemma assignment_invalid_iff_reported_witness :
  ∃ x' s' tr,
    assignment Mini.five Mini.tString "assignment" Mini.start = Some (x', s', tr)
    ∧ (op_mode x' = invalid ↔ ∃ d, d ∈ reports tr ∧ ∀ y c, d ≠ genericDiag y c).
Proof.
  destruct (assignment_invalid_iff_reported Mini.five Mini.tString "assignment"
              Mini.start Mini.five Mini.start)
    as (x' & s' & tr & E & _ & Hiff & _); [reflexivity|reflexivity|].
  exists x', s', tr. split; [exact E|exact Hiff].
Defined.

(** [var s string = x] with [x] of type [int] *)
Lemma assignment_typed_operand_witness :
  ∃ x' tr,
    assignment (Mini.int_var (Name 3 "x")) Mini.tString "assignment" Mini.start
      = Some (x', Mini.start, tr)
    ∧ (x' = Mini.int_var (Name 3 "x") ∨ x' = set_mode invalid (Mini.int_var (Name 3 "x"))).
Proof.
  destruct (assignment_typed_operand (Mini.int_var (Name 3 "x")) Mini.tString "assignment"
              Mini.start (Mini.int_var (Name 3 "x")) Mini.start)
    as (x' & tr & E & Hx & _); [reflexivity|reflexivity|].
  exists x', tr. split; [exact E|exact Hx].
Defined.

(** [var i any = nil] *)
Lemma assignment_nil_target_witness :
  ∃ x' tr,
    assignment Mini.nil_operand Mini.tAny "assignment" Mini.start
      = Some (x', Mini.start, EvImplicit Mini.nil_operand Mini.tAny :: tr)
    ∧ op_typ x' = Mini.tAny.
Proof.
  destruct (assignment_nil_target Mini.nil_operand Mini.tAny "assignment"
              Mini.start Mini.nil_operand Mini.start Mini.tAny None Code0)
    as [_ Hok];
    [reflexivity|reflexivity|reflexivity|reflexivity|discriminate|reflexivity|].
  destruct (Hok eq_refl) as (x' & tr & E & _ & Ht & _).
  exists x', tr. split; [exact E|exact Ht].
Defined.

(** [var b int8 = 1 << 100] *)
Lemma assignment_conversion_failure_witness :
  ∃ d,
    assignment Mini.big Mini.tInt8 "assignment" Mini.start =
      Some (set_mode invalid Mini.big, Mini.start,
            [EvImplicit Mini.big (convTarget Mini.big Mini.tInt8); EvReport d])
    ∧ d_code d = NumericOverflow.
Proof.
  destruct (assignment_conversion_failure Mini.big Mini.tInt8 "assignment"
              Mini.start Mini.big Mini.start Mini.tNil None NumericOverflow)
    as (d & E & _ & _ & Hcode & _);
    [reflexivity|reflexivity|reflexivity|reflexivity|reflexivity|discriminate|].
  exists d. split; [exact E|]. apply Hcode. right. reflexivity.
Defined.

(** [var x, v = y, 5] with [y] undeclared *)
Lemma initVars_invalid_operand_witness :
  ∃ s' tr,
    initVars [0; 1] [Name 9 "y"; OtherExpr 5] None Mini.with_vars = Some (tt, s', tr)
    ∧ var_used (heap s' 0) = true ∧ var_used (heap s' 1) = true.
Proof.
  destruct (initVars_invalid_operand [0; 1] [Name 9 "y"; OtherExpr 5] None Mini.with_vars
              [Mini.unknown (Name 9 "y"); Mini.lit 5] Mini.with_vars)
    as (s' & tr & E & Hused); [reflexivity|reflexivity|reflexivity|].
  exists s', tr. split; [exact E|]. split.
  - apply Hused, list_elem_of_here.
  - apply Hused, list_elem_of_further, list_elem_of_here.
Defined.

(** [x = ...] with [x] a variable of type [int] *)
Lemma lhsVar_accepts_addressable_witness :
  ∃ s' tr, lhsVar (Name 3 "x") Mini.with_vars = Some (Mini.tInt, s', tr) ∧ tr = [].
Proof.
  destruct (lhsVar_accepts_addressable (Name 3 "x") Mini.with_vars
              (Mini.int_var (Name 3 "x")) (usedAt 0 true Mini.with_vars))
    as (T & s' & tr & E & _ & Hacc & _); [discriminate|reflexivity|].
  destruct Hacc as [HT Htr]; [discriminate|reflexivity|].
  exists s', tr. split; [|exact Htr]. rewrite HT in E. exact E.
Defined.

(** [x.f = ...] with [x] a variable: the base is no map index expression *)
Lemma lhsVar_field_of_map_element_witness :
  lhsVar (SelectorExpr (Name 3 "x") "f") Mini.with_vars =
    Some (Typ_Invalid, usedAt 0 true Mini.with_vars,
          [EvReport (cannotAssignToDiag
                       (Mini.int_value (SelectorExpr (Name 3 "x") "f")))]).
Proof.
  apply (lhsVar_field_of_map_element (SelectorExpr (Name 3 "x") "f") Mini.with_vars
           (Mini.int_value (SelectorExpr (Name 3 "x") "f")) Mini.with_vars
           (Name 3 "x") "f" (Mini.int_var (Name 3 "x")) (usedAt 0 true Mini.with_vars));
    [reflexivity|reflexivity|discriminate|discriminate|reflexivity|reflexivity|reflexivity].
Defined.

(** [_ = x] with [x] of type [int] *)
Lemma assignVar_blank_witness :
  assignVar (Name 0 "_") (Mini.int_var (Name 3 "x")) Mini.start =
    Some ((Mini.tInt, Mini.int_var (Name 3 "x")), Mini.start, []).
Proof.
  apply (assignVar_blank (Name 0 "_") (Mini.int_var (Name 3 "x")) Mini.start
           (Mini.int_var (Name 3 "x")) Mini.start);
    [reflexivity|discriminate|discriminate|discriminate|reflexivity|reflexivity|reflexivity].
Defined.

(** [x, x = 5] *)
Lemma assignVars_arity_mismatch_witness :
  ∃ d,
    assignVars [Name 3 "x"; Name 4 "x"] [OtherExpr 5] Mini.with_vars
      = Some (tt, Mini.with_vars, [EvReport d])
    ∧ d_code d = WrongAssignCount.
Proof.
  destruct (assignVars_arity_mismatch [Name 3 "x"; Name 4 "x"] [OtherExpr 5] Mini.with_vars
              [Mini.lit 5] false Mini.with_vars)
    as (tr & E & _ & Hone); [reflexivity|simpl; lia|discriminate|].
  destruct Hone as (d & -> & Hcode & _); [reflexivity|].
  exists d. split; [exact E|exact Hcode].
Defined.

(** The summary of [int] and an untyped integer constant, variadic or not *)
Lemma typesSummary_plain_witness :
  typesSummary (TS := Mini.types) [Mini.tInt; Mini.tUntypedInt] true
    = Some "(int, number)"%string.
Proof.
  apply (typesSummary_plain (TS := Mini.types) [Mini.tInt; Mini.tUntypedInt] true).
  intros _ t Ht. injection Ht as <-. right. right. reflexivity.
Defined.

(** A variadic summary whose last type is [string], no slice *)
Lemma typesSummary_variadic_witness :
  typesSummary (TS := Mini.types) [Mini.tInt; Mini.tString] true = None.
Proof.
  apply (typesSummary_variadic (TS := Mini.types) [Mini.tInt] Mini.tString);
    [discriminate|discriminate|reflexivity].
Defined.

(** [a, a := 5, 6] *)
Lemma shortVarDecl_reports_repeated_witness :
  ∃ s' tr,
    shortVarDecl 7 [Name 1 "a"; Name 2 "a"] [OtherExpr 5; OtherExpr 6] Mini.start
      = Some (tt, s', tr)
    ∧ EvReport (repeatedDiag (Name 2 "a")) ∈ tr.
Proof.
  destruct (shortVarDecl_reports_repeated 7 [Name 1 "a"; Name 2 "a"]
              [OtherExpr 5; OtherExpr 6] Mini.start)
    as (st & s1 & tr1 & s' & tr2 & _ & E & Hrep & _).
  - discriminate.
  - intros es b s0. simpl. destruct (Mini.evalList es s0). discriminate.
  - exists s', (tr1 ++ tr2). split; [exact E|]. apply elem_of_app. left.
    apply Hrep. exists 1. split; reflexivity.
Defined.


(** After a failed [(x), y = ...]: [x] is marked *)
Lemma markUsed_frame_witness :
  ∃ s',
    markUsed [ParenExpr (Name 3 "x"); Name 4 "y"] Mini.with_vars = Some (tt, s', [])
    ∧ heap s' 0 = var_set_used true (heap Mini.with_vars 0).
Proof.
  destruct (markUsed_frame [ParenExpr (Name 3 "x"); Name 4 "y"] Mini.with_vars)
    as (s' & E & _ & Hmark & _); [intros name h c; reflexivity|].
  exists s'. split; [exact E|]. apply Hmark. split; [reflexivity|].
  exists (ParenExpr (Name 3 "x")), "x"%string. split; [apply list_elem_of_here|].
  split; reflexivity.
Defined.
